(** * cacheman-s3: the cache-semantics layer of [S3Store]

    A shallow embedding of [src/index.ts] and [src/types.ts]: the key codec
    ([formatKey] and the decoding done by [scan]), TTL validation and lazy
    expiry, the callback protocol of [get], [set], [del], [clear],
    [scan] and [healthCheck] against an object store that is only known
    through the replies it gives, and the validation of the options by the
    constructor.

    - Cache keys are JavaScript strings, sequences of UTF-16 code units;
      [encodeURIComponent] and [decodeURIComponent] follow ECMAScript.
      Attribute values, messages and bodies are ASCII strings.
    - The sanitizer, [JSON.stringify], [JSON.parse] and
      [Number.prototype.toString] are parameters.
    - An operation is a function on a [World]: it consumes the replies of
      the store in the order in which the promises settle, and records the
      commands sent and the arguments its callbacks received.  An operation
      that waits for a reply that does not come stays where it is.
    - The functions supplied by the caller do not throw. *)

From Stdlib Require Import NArith ZArith QArith Lia List Ascii String
  DecimalString.
From stdpp Require Import base option list strings gmap.
Import ListNotations.

(** * The embedding *)

(** ** JavaScript strings and the URI built-ins *)

Module JSString.
Local Open Scope N_scope.

(** A JavaScript string is a sequence of UTF-16 code units. *)
Definition jsstring : Type := list N.

(** The code units of an ASCII literal. *)
Definition js (s : string) : jsstring :=
  map N_of_ascii (list_ascii_of_string s).

Fixpoint stripPrefix (p s : jsstring) : option jsstring :=
  match p, s with
  | [], _ => Some s
  | a :: p', b :: s' => if a =? b then stripPrefix p' s' else None
  | _ :: _, [] => None
  end.

Definition startsWith (p s : jsstring) : bool :=
  match stripPrefix p s with Some _ => true | None => false end.

(** [s.replace(new RegExp(pat, 'g'), rep)] for a pattern without
    metacharacters and a replacement without [$]: the matches are found
    left to right and do not overlap.  [skip] counts the code units of
    the current match still to be consumed.  The pattern is not empty. *)
Fixpoint replaceAll_from (pat rep : jsstring) (skip : nat) (s : jsstring)
  : jsstring :=
  match s with
  | [] => []
  | c :: t =>
      match skip with
      | S k => replaceAll_from pat rep k t
      | O =>
          if startsWith pat s
          then rep ++ replaceAll_from pat rep (Nat.pred (length pat)) t
          else c :: replaceAll_from pat rep 0 t
      end
  end.

Definition replaceAll (pat rep s : jsstring) : jsstring :=
  replaceAll_from pat rep 0 s.

(** [s.replace(pat, rep)] with a string pattern: only the first
    occurrence is replaced (the empty pattern occurs at index 0). *)
Fixpoint replaceFirst (pat rep s : jsstring) : jsstring :=
  match stripPrefix pat s with
  | Some rest => rep ++ rest
  | None =>
      match s with
      | [] => []
      | c :: t => c :: replaceFirst pat rep t
      end
  end.

(** *** [encodeURIComponent] *)

Definition isAlpha (c : N) : bool :=
  (65 <=? c) && (c <=? 90) || (97 <=? c) && (c <=? 122).
Definition isDecimalDigit (c : N) : bool := (48 <=? c) && (c <=? 57).
(** [- _ . ! ~ * ' ( )] *)
Definition isMark (c : N) : bool :=
  existsb (N.eqb c) [45; 95; 46; 33; 126; 42; 39; 40; 41].
Definition uriUnescaped (c : N) : bool :=
  isAlpha c || isDecimalDigit c || isMark c.

Definition isLeadingSurrogate (c : N) : bool := (55296 <=? c) && (c <=? 56319).
Definition isTrailingSurrogate (c : N) : bool := (56320 <=? c) && (c <=? 57343).

Definition UTF16SurrogatePairToCodePoint (lead trail : N) : N :=
  (lead - 55296) * 1024 + (trail - 56320) + 65536.

Definition UTF16EncodeCodePoint (cp : N) : jsstring :=
  if cp <=? 65535 then [cp]
  else [(cp - 65536) / 1024 + 55296; (cp - 65536) mod 1024 + 56320].

(** The octets of the UTF-8 encoding of a code point. *)
Definition utf8 (cp : N) : list N :=
  if cp <? 128 then [cp]
  else if cp <? 2048 then [192 + cp / 64; 128 + cp mod 64]
  else if cp <? 65536 then
    [224 + cp / 4096; 128 + (cp / 64) mod 64; 128 + cp mod 64]
  else
    [240 + cp / 262144; 128 + (cp / 4096) mod 64;
     128 + (cp / 64) mod 64; 128 + cp mod 64].

Definition hexDigit (d : N) : N := if d <? 10 then 48 + d else 55 + d.

(** ["%XX"], upper-case hexadecimal. *)
Definition escapeOctet (b : N) : jsstring :=
  [37; hexDigit (b / 16); hexDigit (b mod 16)].

Definition escape (octets : list N) : jsstring :=
  flat_map escapeOctet octets.

(** The abstract operation Encode of ECMAScript; [None] is a thrown
    [URIError] (an unpaired surrogate). *)
Fixpoint Encode (unescaped : N -> bool) (s : jsstring) : option jsstring :=
  match s with
  | [] => Some []
  | c :: t =>
      if unescaped c then cons c <$> Encode unescaped t
      else if isTrailingSurrogate c then None
      else if isLeadingSurrogate c then
        match t with
        | d :: t' =>
            if isTrailingSurrogate d
            then app (escape (utf8 (UTF16SurrogatePairToCodePoint c d)))
                   <$> Encode unescaped t'
            else None
        | [] => None
        end
      else app (escape (utf8 c)) <$> Encode unescaped t
  end.

Definition encodeURIComponent (s : jsstring) : option jsstring :=
  Encode uriUnescaped s.

(** *** [decodeURIComponent] *)

Definition hexValue (c : N) : option N :=
  if isDecimalDigit c then Some (c - 48)
  else if (65 <=? c) && (c <=? 70) then Some (c - 55)
  else if (97 <=? c) && (c <=? 102) then Some (c - 87)
  else None.

Definition ParseHexOctet (h l : N) : option N :=
  match hexValue h, hexValue l with
  | Some x, Some y => Some (16 * x + y)
  | _, _ => None
  end.

Inductive token : Type :=
| Lit (c : N)
| Octet (b : N).

(** Every [%] must be followed by two hexadecimal digits.  A malformed
    escape makes the whole call throw wherever it stands, so the escapes
    are read first and grouped into code points afterwards. *)
Fixpoint tokens (s : jsstring) : option (list token) :=
  match s with
  | [] => Some []
  | c :: t =>
      if c =? 37 then
        match t with
        | h :: l :: t' =>
            match ParseHexOctet h l with
            | Some b => cons (Octet b) <$> tokens t'
            | None => None
            end
        | _ => None
        end
      else cons (Lit c) <$> tokens t
  end.

Definition isContinuation (b : N) : bool := (128 <=? b) && (b <? 192).

Definition utf8Decode2 (b1 b2 : N) : option N :=
  let v := (b1 - 192) * 64 + (b2 - 128) in
  if isContinuation b2 && (128 <=? v) then Some v else None.

Definition utf8Decode3 (b1 b2 b3 : N) : option N :=
  let v := (b1 - 224) * 4096 + (b2 - 128) * 64 + (b3 - 128) in
  if isContinuation b2 && isContinuation b3 && (2048 <=? v)
     && negb ((55296 <=? v) && (v <=? 57343))
  then Some v else None.

Definition utf8Decode4 (b1 b2 b3 b4 : N) : option N :=
  let v := (b1 - 240) * 262144 + (b2 - 128) * 4096
           + (b3 - 128) * 64 + (b4 - 128) in
  if isContinuation b2 && isContinuation b3 && isContinuation b4
     && (65536 <=? v) && (v <=? 1114111)
  then Some v else None.

(** The number of leading 1 bits of the first octet decides how many
    continuation octets follow; the octets must be a valid UTF-8
    encoding. *)
Fixpoint decodeTokens (ts : list token) : option jsstring :=
  match ts with
  | [] => Some []
  | Lit c :: r => cons c <$> decodeTokens r
  | Octet b :: r =>
      if b <? 128 then cons b <$> decodeTokens r
      else if b <? 192 then None
      else if b <? 224 then
        match r with
        | Octet b2 :: r' =>
            match utf8Decode2 b b2 with
            | Some v => app (UTF16EncodeCodePoint v) <$> decodeTokens r'
            | None => None
            end
        | _ => None
        end
      else if b <? 240 then
        match r with
        | Octet b2 :: Octet b3 :: r' =>
            match utf8Decode3 b b2 b3 with
            | Some v => app (UTF16EncodeCodePoint v) <$> decodeTokens r'
            | None => None
            end
        | _ => None
        end
      else if b <? 248 then
        match r with
        | Octet b2 :: Octet b3 :: Octet b4 :: r' =>
            match utf8Decode4 b b2 b3 b4 with
            | Some v => app (UTF16EncodeCodePoint v) <$> decodeTokens r'
            | None => None
            end
        | _ => None
        end
      else None
  end.

(** [None] is a thrown [URIError]. *)
Definition decodeURIComponent (s : jsstring) : option jsstring :=
  tokens s ≫= decodeTokens.

End JSString.

Import JSString.

Local Open Scope string_scope.
Local Open Scope Z_scope.
Local Open Scope list_scope.

(** ** Values, numbers and errors *)

(** A JavaScript number: rounding is not modelled, a finite number is an
    exact rational. *)
Inductive JSNumber : Type :=
| NaN
| Infinity (negative : bool)
| Finite (q : Q).

(** [n === m] and [n > m] against a finite constant [m]. *)
Definition strictEquals (n : JSNumber) (m : Q) : bool :=
  match n with
  | Finite q => Qeq_bool q m
  | _ => false
  end.

Definition greaterThan (n : JSNumber) (m : Q) : bool :=
  match n with
  | NaN => false
  | Infinity negative => negb negative
  | Finite q => negb (Qle_bool q m)
  end.

Definition plus (n m : JSNumber) : JSNumber :=
  match n, m with
  | NaN, _ | _, NaN => NaN
  | Infinity a, Infinity b => if Bool.eqb a b then Infinity a else NaN
  | Infinity a, Finite _ | Finite _, Infinity a => Infinity a
  | Finite p, Finite q => Finite (p + q)
  end.

(** [n * m] for a finite positive constant [m]. *)
Definition timesPositive (n : JSNumber) (m : Q) : JSNumber :=
  match n with
  | Finite q => Finite (q * m)
  | other => other
  end.

(** A value of type [unknown], as far as [typeof value === 'number']
    tells. *)
Inductive Unknown : Type :=
| IsNumber (n : JSNumber)
| NotANumber.

(** A payload position: [undefined], [null] or a value of the payload
    type. *)
Inductive JSValue (T : Type) : Type :=
| Undefined
| Null
| Value (t : T).
Arguments Undefined {T}.
Arguments Null {T}.
Arguments Value {T} t.

(** What the storage client rejects with: [error.name],
    [error.$metadata?.httpStatusCode] and [error.message]. *)
Record ProviderError : Type := {
  name : option string;
  httpStatusCode : option Z;
  message : option string
}.

(** Errors that do not come from this library: a rejection of the storage
    client, the [URIError] of the URI built-ins, or any other exception
    (of [JSON.parse], [JSON.stringify], a stream). *)
Inductive NativeError : Type :=
| Rejection (e : ProviderError)
| URIError
| OtherError (description : string).

(** The error taxonomy of types.ts; [Native] is an error passed on as it
    was caught. *)
Inductive JSError : Type :=
| Native (e : NativeError)
| ConfigurationError (msg : string)
| TTLError (msg : string)
| SerializationError (msg : string) (originalError : option NativeError)
| S3OperationError (msg : string) (statusCode : option Z)
    (originalError : option NativeError).

(** ** types.ts: the type guards *)

Definition isDefined {T} (value : JSValue T) : bool :=
  match value with
  | Undefined | Null => false
  | Value _ => true
  end.

Definition isValidTTL (value : Unknown) : bool :=
  match value with
  | IsNumber n => strictEquals n (-1) || greaterThan n 0
  | NotANumber => false
  end.

(** The number a value is once the guard has narrowed it. *)
Definition numberOf (value : Unknown) : JSNumber :=
  match value with
  | IsNumber n => n
  | NotANumber => NaN
  end.

Definition isValidCacheKey (key : jsstring) : bool :=
  negb (Nat.eqb (length key) 0).

(** ** The storage client *)

Definition CacheKey : Type := jsstring.

Record PutObjectCommandInput : Type := {
  Bucket : string;
  Key : CacheKey;
  Body : string;
  ContentType : string;
  Metadata : gmap string string;
  StorageClass : option string;
  ServerSideEncryption : option string
}.

Inductive Command : Type :=
| GetObjectCommand (bucket : string) (key : CacheKey)
| PutObjectCommand (input : PutObjectCommandInput)
| DeleteObjectCommand (bucket : string) (key : CacheKey)
| DeleteObjectsCommand (bucket : string) (objects : list jsstring)
| ListObjectsV2Command (bucket : string) (prefix : jsstring)
    (maxKeys : option JSNumber) (continuationToken : option string)
| HeadBucketCommand (bucket : string).

(** The body of a [GetObject] reply: a readable stream ends with its text
    (or with the failure of [Buffer.concat(chunks).toString]) or emits
    [error]; anything else is not a [Readable]. *)
Inductive StreamEvents : Type :=
| StreamEnd (text : NativeError + string)
| StreamError (error : NativeError).

Inductive ResponseBody : Type :=
| Readable (events : StreamEvents)
| NotReadable.

(** The fields this layer reads from what a command resolves with. *)
Record Output : Type := {
  outBody : ResponseBody;
  outMetadata : option (gmap string string);
  Contents : option (list (option jsstring));
  IsTruncated : bool;
  NextContinuationToken : option string
}.

Inductive Reply : Type :=
| Resolved (result : Output)
| Rejected (error : ProviderError).

(** The environment of one run: the replies of the store to the commands
    sent, in the order the promises settle, and the readings of
    [Date.now()].  The run records what was sent, what the caller's
    callbacks received and what was thrown to the caller. *)
Record World (R : Type) : Type := {
  replies : list Reply;
  clock : nat -> Z;
  reads : nat;
  sent : list Command;
  called : list R;
  thrown : list JSError
}.
Arguments replies {R} w.
Arguments clock {R} w.
Arguments reads {R} w.
Arguments sent {R} w.
Arguments called {R} w.
Arguments thrown {R} w.

Definition Action (R : Type) : Type := World R -> World R.

Section Primitives.
Context {R : Type}.

Definition skip : Action R := fun w => w.

Definition logSent (c : Command) : Action R := fun w =>
  {| replies := replies w; clock := clock w; reads := reads w;
     sent := sent w ++ [c]; called := called w; thrown := thrown w |}.

Definition nextReply (w : World R) : option (Reply * World R) :=
  match replies w with
  | [] => None
  | r :: rest =>
      Some (r, {| replies := rest; clock := clock w; reads := reads w;
                  sent := sent w; called := called w;
                  thrown := thrown w |})
  end.

(** [s3Client.send(c).then(..).catch(..)]: the handlers run when the
    promise settles; without a reply the operation stays pending. *)
Definition send (c : Command) (settled : Reply -> Action R) : Action R :=
  fun w =>
    match nextReply (logSent c w) with
    | Some (r, w') => settled r w'
    | None => logSent c w
    end.

(** Calling a function supplied by the caller. *)
Definition invoke (args : R) : Action R := fun w =>
  {| replies := replies w; clock := clock w; reads := reads w;
     sent := sent w; called := called w ++ [args]; thrown := thrown w |}.

Definition throw (e : JSError) : Action R := fun w =>
  {| replies := replies w; clock := clock w; reads := reads w;
     sent := sent w; called := called w; thrown := thrown w ++ [e] |}.

Definition DateNow (k : Z -> Action R) : Action R := fun w =>
  k (clock w (reads w))
    {| replies := replies w; clock := clock w; reads := S (reads w);
       sent := sent w; called := called w; thrown := thrown w |}.

(** [process.nextTick(f)]: [f] runs once the current call has returned;
    nothing else of the operation runs in between. *)
Definition nextTick (f : Action R) : Action R := f.

Definition noop {A} : A -> Action R := fun _ => skip.
End Primitives.

(** ** [parseInt(s, 10)] on attribute strings *)

Definition isStrWhiteSpaceChar (c : ascii) : bool :=
  existsb (N.eqb (N_of_ascii c)) [9; 10; 11; 12; 13; 32]%N.

Definition digitValue (c : ascii) : option Z :=
  let n := N_of_ascii c in
  if ((48 <=? n) && (n <=? 57))%N then Some (Z.of_N n - 48) else None.

Fixpoint trimStart (s : string) : string :=
  match s with
  | String c t => if isStrWhiteSpaceChar c then trimStart t else s
  | EmptyString => s
  end.

(** The value of the longest prefix of decimal digits, if there is one. *)
Fixpoint digitsValue (s : string) (acc : option Z) : option Z :=
  match s with
  | String c t =>
      match digitValue c with
      | Some d => digitsValue t (Some (10 * default 0 acc + d))
      | None => acc
      end
  | EmptyString => acc
  end.

(** [None] is [NaN]. *)
Definition parseInt10 (s : string) : option Z :=
  match trimStart s with
  | String "-" t => Z.opp <$> digitsValue t None
  | String "+" t => digitsValue t None
  | t => digitsValue t None
  end.

(** A string is truthy when it is not empty. *)
Definition truthy (s : string) : bool :=
  match s with EmptyString => false | _ => true end.

Definition truthyOpt (s : option string) : bool :=
  match s with Some t => truthy t | None => false end.

(** ** index.ts: [S3Store] *)

Record ProcessedS3StoreOptions : Type := {
  bucket : string;
  region : string;
  prefix : jsstring;
  defaultTtl : JSNumber;
  storageClass : option string;
  serverSideEncryption : option string
}.

Definition SLASH_PLACEHOLDER : jsstring := js "__SLASH__".
Definition SLASH : jsstring := js "/".

Record HealthStatus : Type := {
  status : string;
  hsBucket : string;
  hsRegion : string;
  sdkVersion : string;
  hsError : option string
}.

Inductive Cursor : Type :=
| CursorNumber (n : Z)
| CursorToken (token : string).

Record ScanResult (T : Type) : Type := {
  cursor : Cursor;
  entries : list (jsstring * T)
}.
Arguments cursor {T} s.
Arguments entries {T} s.

Section S3Store.
(** The payload type with its serialisation, the sanitizer
    ([sanitize-filename]) and [Number.prototype.toString] are supplied
    from outside. *)
Variable T : Type.
Variable JSON_stringify : JSValue T -> NativeError + string.
Variable JSON_parse : string -> NativeError + JSValue T.
Variable sanitize : jsstring -> jsstring.
Variable toString : JSNumber -> string.
Variable config : ProcessedS3StoreOptions.

Definition GetArgs : Type := option JSError * JSValue T.
Definition SetArgs : Type := option JSError * JSValue T.
Definition DeleteArgs : Type := option JSError.
Definition ClearArgs : Type := option JSError.
Definition ScanArgs : Type := option JSError * option (ScanResult T).
Definition HealthArgs : Type := option JSError * option HealthStatus.

(** Formats cache key for S3 storage with proper sanitization. *)
Definition formatKey (key : jsstring) : JSError + CacheKey :=
  if isValidCacheKey key then
    let keyWithPlaceholders := replaceAll SLASH SLASH_PLACEHOLDER key in
    let sanitized := sanitize keyWithPlaceholders in
    match encodeURIComponent sanitized,
          encodeURIComponent SLASH_PLACEHOLDER with
    | Some encoded, Some pattern =>
        let withSlashes := replaceAll pattern SLASH encoded in
        inr (prefix config ++ withSlashes)
    | _, _ => inl (Native URIError)
    end
  else inl (ConfigurationError "Cache key must be a non-empty string").

(** [decodeURIComponent(obj.Key.replace(this.config.prefix, ''))] in
    [scan]. *)
Definition originalKeyOf (Key : jsstring) : option jsstring :=
  decodeURIComponent (replaceFirst (prefix config) [] Key).

Section Operations.
Context {R : Type}.

(** Checks if cached entry has expired based on metadata;
    [Date.now()] is read only when the attribute parses. *)
Definition isExpired (metadata : gmap string string)
    (k : bool -> Action R) : Action R :=
  match metadata !! "cache-ttl" with
  | None => k false
  | Some ttl =>
      if truthy ttl then
        match parseInt10 ttl with
        | None => k false
        | Some expirationTime =>
            DateNow (fun now => k (now >? expirationTime))
        end
      else k false
  end.

(** Converts readable stream to string. *)
Definition streamToString (stream : StreamEvents)
    (callback : option JSError -> option string -> Action R)
  : Action R :=
  match stream with
  | StreamError error =>
      callback
        (Some (S3OperationError "Failed to read stream" None (Some error)))
        None
  | StreamEnd (inr result) => callback None (Some result)
  | StreamEnd (inl error) =>
      callback
        (Some (S3OperationError "Failed to convert stream to string"
                 None (Some error)))
        None
  end.

Definition del (key : jsstring) (callback : DeleteArgs -> Action R)
  : Action R :=
  match formatKey key with
  | inr s3Key =>
      send (DeleteObjectCommand (bucket config) s3Key) (fun reply =>
        match reply with
        | Resolved _ => callback None
        | Rejected error =>
            callback
              (Some (S3OperationError "Failed to delete cache entry"
                       (httpStatusCode error) (Some (Rejection error))))
        end)
  | inl error => nextTick (callback (Some error))
  end.

Definition isNotFound (error : ProviderError) : bool :=
  bool_decide (name error = Some "NoSuchKey")
  || bool_decide (httpStatusCode error = Some 404).

Definition get (key : jsstring) (callback : GetArgs -> Action R)
  : Action R :=
  match formatKey key with
  | inr s3Key =>
      send (GetObjectCommand (bucket config) s3Key) (fun reply =>
        match reply with
        | Resolved result =>
            let readBody : Action R :=
              match outBody result with
              | Readable stream =>
                  streamToString stream (fun error bodyText =>
                    match error with
                    | Some error => callback (Some error, Undefined)
                    | None =>
                        match JSON_parse (default EmptyString bodyText) with
                        | inr value => callback (None, value)
                        | inl parseError =>
                            callback
                              (Some (SerializationError
                                       "Failed to parse cached value"
                                       (Some parseError)), Undefined)
                        end
                    end)
              | NotReadable =>
                  callback
                    (Some (S3OperationError
                             "Unexpected response body format" None None),
                     Undefined)
              end in
            match outMetadata result with
            | Some metadata =>
                isExpired metadata (fun expired =>
                  if expired
                  then del key (fun _ => callback (None, Null))
                  else readBody)
            | None => readBody
            end
        | Rejected error =>
            if isNotFound error then callback (None, Null)
            else
              callback
                (Some (S3OperationError "Failed to retrieve cache entry"
                         (httpStatusCode error) (Some (Rejection error))),
                 Undefined)
        end)
  | inl error => nextTick (callback (Some error, Undefined))
  end.

(** The [ttl] argument of [set]: left out, the callback itself, a
    number, or some other value. *)
Inductive TtlArgument : Type :=
| TtlOmitted
| TtlIsCallback (f : SetArgs -> Action R)
| TtlGiven (ttl : Unknown).

Definition set (key : jsstring) (value : JSValue T) (ttl : TtlArgument)
    (callback : SetArgs -> Action R) : Action R :=
  let afterTtl (actualTtl : JSNumber)
      (actualCallback : SetArgs -> Action R) : Action R :=
    match value with
    | Undefined =>
        nextTick
          (actualCallback
             (Some (SerializationError "Value cannot be undefined" None),
              Undefined))
    | _ =>
        match formatKey key with
        | inr s3Key =>
            let withExpireAt (expireAt : JSNumber) : Action R :=
              match JSON_stringify value with
              | inl serializeError =>
                  nextTick
                    (actualCallback
                       (Some (SerializationError
                                "Failed to serialize value"
                                (Some serializeError)), Undefined))
              | inr serializedValue =>
                  DateNow (fun created =>
                    let metadata : gmap string string :=
                      {[ "cache-created" := toString (Finite (inject_Z created));
                         "cache-version" := "1.0" ]} in
                    let s3Metadata :=
                      if strictEquals expireAt (-1) then metadata
                      else <["cache-ttl" := toString expireAt]> metadata in
                    let params := {|
                      Bucket := bucket config;
                      Key := s3Key;
                      Body := serializedValue;
                      ContentType := "application/json";
                      Metadata := s3Metadata;
                      StorageClass :=
                        if truthyOpt (storageClass config)
                        then storageClass config else None;
                      ServerSideEncryption :=
                        if truthyOpt (serverSideEncryption config)
                        then serverSideEncryption config else None |} in
                    send (PutObjectCommand params) (fun reply =>
                      match reply with
                      | Resolved _ => actualCallback (None, value)
                      | Rejected error =>
                          actualCallback
                            (Some (S3OperationError
                                     "Failed to store cache entry"
                                     (httpStatusCode error)
                                     (Some (Rejection error))),
                             Undefined)
                      end))
              end in
            if strictEquals actualTtl (-1)
            then withExpireAt (Finite (-1))
            else
              DateNow (fun now =>
                withExpireAt
                  (plus (Finite (inject_Z now))
                     (timesPositive actualTtl 1000)))
        | inl error => nextTick (actualCallback (Some error, Undefined))
        end
    end in
  match ttl with
  | TtlIsCallback f => afterTtl (defaultTtl config) f
  | TtlGiven ttl =>
      if isValidTTL ttl then afterTtl (numberOf ttl) callback
      else
        nextTick
          (callback
             (Some (TTLError
                      "TTL must be a positive number or -1 for infinite"),
              Undefined))
  | TtlOmitted => afterTtl (defaultTtl config) callback
  end.

(** Performs a health check on the S3 connection. *)
Definition healthCheck (callback : HealthArgs -> Action R) : Action R :=
  send (HeadBucketCommand (bucket config)) (fun reply =>
    match reply with
    | Resolved _ =>
        callback
          (None,
           Some {| status := "healthy"; hsBucket := bucket config;
                   hsRegion := region config; sdkVersion := "v3";
                   hsError := None |})
    | Rejected error =>
        callback
          (None,
           Some {| status := "unhealthy"; hsBucket := bucket config;
                   hsRegion := region config; sdkVersion := "v3";
                   hsError :=
                     Some (default "Unknown error" (message error)) |})
    end).
End Operations.

Section Clear.
Context {R : Type}.

(** Splits an array into chunks of specified size.  The loop runs at
    most [array.length] times for a positive [chunkSize]. *)
Fixpoint chunkArray_from {U} (fuel : nat) (array : list U)
    (chunkSize i : nat) : list (list U) :=
  match fuel with
  | O => []
  | S fuel' =>
      if (i <? length array)%nat
      then take chunkSize (drop i array)
             :: chunkArray_from fuel' array chunkSize (i + chunkSize)
      else []
  end.

Definition chunkArray {U} (array : list U) (chunkSize : nat)
  : list (list U) :=
  chunkArray_from (length array) array chunkSize 0.

(** [Contents.map(obj => ({ Key: obj.Key ?? '' })).filter(obj => obj.Key)] *)
Definition keysOf (contents : list (option jsstring)) : list jsstring :=
  filter (fun Key => Key ≠ []) (map (default []) contents).

(** Lists all objects with the configured prefix.  [script] is the
    list of replies still to come, one page per reply. *)
Fixpoint listBatch (script : list Reply) (objects : list jsstring)
    (continuationToken : option string)
    (callback : option JSError -> option (list jsstring) -> Action R)
  : Action R :=
  let command :=
    ListObjectsV2Command (bucket config) (prefix config) None
      (if truthyOpt continuationToken then continuationToken else None) in
  match script with
  | [] => send command (fun _ => skip)
  | _ :: rest =>
      send command (fun reply =>
        match reply with
        | Resolved result =>
            let objects' :=
              match Contents result with
              | Some contents => objects ++ keysOf contents
              | None => objects
              end in
            if IsTruncated result
            then listBatch rest objects' (NextContinuationToken result)
                   callback
            else callback None (Some objects')
        | Rejected error =>
            callback
              (Some (S3OperationError "Failed to list objects"
                       (httpStatusCode error) (Some (Rejection error))))
              None
        end)
  end.

Definition listAllObjects
    (callback : option JSError -> option (list jsstring) -> Action R)
  : Action R :=
  fun w => listBatch (replies w) [] None callback w.

(** The variables shared by the handlers of the batch deletes. *)
Record ClearState : Type := { completed : nat; hasError : bool }.

(** The [then] and [catch] handlers of one batch delete. *)
Definition batchSettled (batches : nat) (callback : ClearArgs -> Action R)
    (reply : Reply) (st : ClearState) : ClearState * Action R :=
  match reply with
  | Resolved _ =>
      if hasError st then (st, skip)
      else
        let completed' := S (completed st) in
        ({| completed := completed'; hasError := hasError st |},
         if (completed' =? batches)%nat then callback None else skip)
  | Rejected error =>
      if hasError st then (st, skip)
      else
        ({| completed := completed st; hasError := true |},
         callback
           (Some (S3OperationError "Failed to clear cache"
                    (httpStatusCode error) (Some (Rejection error)))))
  end.

(** The batch deletes are all in flight; each of the [pending] promises
    settles once, in the order of the remaining replies. *)
Fixpoint awaitBatches (pending batches : nat)
    (callback : ClearArgs -> Action R) (st : ClearState) : Action R :=
  fun w =>
    match pending with
    | O => w
    | S pending' =>
        match nextReply w with
        | None => w
        | Some (reply, w') =>
            let '(st', handler) := batchSettled batches callback reply st in
            awaitBatches pending' batches callback st' (handler w')
        end
    end.

(** Clears all cache entries with the configured prefix. *)
Definition clear (callback : ClearArgs -> Action R) : Action R :=
  listAllObjects (fun error objects =>
    match error with
    | Some error => callback (Some error)
    | None =>
        match objects with
        | None | Some [] => callback None
        | Some objects =>
            let batches := chunkArray objects 1000 in
            fun w =>
              awaitBatches (length batches) (length batches) callback
                {| completed := 0; hasError := false |}
                (fold_left
                   (fun w batch =>
                      logSent (DeleteObjectsCommand (bucket config) batch) w)
                   batches w)
        end
    end).

End Clear.

(** *** [scan] *)

Section Scan.
Context {R : Type}.

Inductive PatternArgument : Type :=
| PatternOmitted
| PatternIsCallback (f : ScanArgs -> Action R)
| PatternGiven (pattern : jsstring).

Inductive LimitArgument : Type :=
| LimitOmitted
| LimitIsCallback (f : ScanArgs -> Action R)
| LimitGiven (limit : JSNumber).

(** The variables shared by the callbacks of the lookups. *)
Record ScanState : Type := {
  processed : nat;
  found : list (jsstring * T)
}.

Definition cursorOf (result : Output) : Cursor :=
  if IsTruncated result then
    match NextContinuationToken result with
    | Some token => CursorToken token
    | None => CursorNumber 1
    end
  else CursorNumber 0.

Definition reportWhenDone (objects : nat) (result : Output)
    (actualCallback : ScanArgs -> Action R) (st : ScanState) : Action R :=
  if (processed st =? objects)%nat
  then actualCallback
         (None, Some {| cursor := cursorOf result; entries := found st |})
  else skip.

(** The callback [scan] passes to [get]: an entry is kept when
    [!error && data !== null && isDefined(data)]. *)
Definition lookedUp (objects : nat) (result : Output)
    (actualCallback : ScanArgs -> Action R) (originalKey : jsstring)
    (args : GetArgs) (st : ScanState) : ScanState * Action R :=
  let found' :=
    match args with
    | (None, Value data) => found st ++ [(originalKey, data)]
    | _ => found st
    end in
  let st' := {| processed := S (processed st); found := found' |} in
  (st', reportWhenDone objects result actualCallback st').

(** [objects.forEach]: an object without key is counted at once, a key
    is decoded and its lookup issued; a key that does not decode throws
    out of the loop.  [issued] collects the keys looked up. *)
Fixpoint forEachObject (objects : nat) (result : Output)
    (actualCallback : ScanArgs -> Action R)
    (remaining : list (option jsstring)) (st : ScanState)
    (issued : list jsstring)
    (finished : ScanState -> list jsstring -> Action R)
    (failed : NativeError -> ScanState -> list jsstring -> Action R)
  : Action R :=
  match remaining with
  | [] => finished st issued
  | obj :: rest =>
      match obj with
      | None | Some [] =>
          let st' :=
            {| processed := S (processed st); found := found st |} in
          fun w =>
            forEachObject objects result actualCallback rest st' issued
              finished failed
              (reportWhenDone objects result actualCallback st' w)
      | Some Key =>
          match originalKeyOf Key with
          | Some originalKey =>
              forEachObject objects result actualCallback rest st
                (issued ++ [originalKey]) finished failed
          | None => failed URIError st issued
          end
      end
  end.

(** The lookups run concurrently.  The lookup issued [i]-th runs [get]
    against its own replies, [lookups i]; [arrival] is the order in
    which the lookups call back. *)
Fixpoint awaitLookups (objects : nat) (result : Output)
    (actualCallback : ScanArgs -> Action R) (issued : list jsstring)
    (lookups : nat -> World GetArgs) (arrival : list nat)
    (st : ScanState) : Action R :=
  fun w =>
    match arrival with
    | [] => w
    | i :: later =>
        match issued !! i with
        | Some originalKey =>
            let '(st', w') :=
              fold_left
                (fun '(st, w) args =>
                   let '(st', handler) :=
                     lookedUp objects result actualCallback originalKey
                       args st in
                   (st', handler w))
                (called (get originalKey invoke (lookups i))) (st, w) in
            awaitLookups objects result actualCallback issued lookups
              later st' w'
        | None =>
            awaitLookups objects result actualCallback issued lookups
              later st w
        end
    end.

(** The [then] handler of the listing. *)
Definition scanListed (result : Output)
    (actualCallback : ScanArgs -> Action R)
    (lookups : nat -> World GetArgs) (arrival : list nat) : Action R :=
  let objects := default [] (Contents result) in
  match objects with
  | [] =>
      actualCallback
        (None, Some {| cursor := CursorNumber 0; entries := [] |})
  | _ =>
      forEachObject (length objects) result actualCallback
        objects {| processed := 0; found := [] |} []
        (fun st issued =>
           awaitLookups (length objects) result actualCallback
             issued lookups arrival st)
        (fun error st issued w =>
           awaitLookups (length objects) result actualCallback
             issued lookups arrival st
             (actualCallback
                (Some (S3OperationError "Failed to scan cache entries"
                         None (Some error)), None) w))
  end.

(** The prefix listed for a pattern; [None] is the [URIError] of
    [encodeURIComponent]. *)
Definition scanPrefix (actualPattern : jsstring) : option jsstring :=
  match actualPattern with
  | [] => Some (prefix config)
  | _ =>
      let patternWithPlaceholders :=
        replaceAll SLASH SLASH_PLACEHOLDER actualPattern in
      let sanitized := sanitize patternWithPlaceholders in
      match encodeURIComponent sanitized,
            encodeURIComponent SLASH_PLACEHOLDER with
      | Some encoded, Some pat =>
          Some (prefix config ++ replaceAll pat SLASH encoded)
      | _, _ => None
      end
  end.

(** Scans cache entries with optional pattern matching. *)
Definition scan (pattern : PatternArgument) (limit : LimitArgument)
    (callback : option (ScanArgs -> Action R))
    (lookups : nat -> World GetArgs) (arrival : list nat) : Action R :=
  let given :=
    match pattern with PatternGiven p => p | _ => [] end in
  let '(actualPattern, actualLimit, actualCallback) :=
    match pattern, limit, callback with
    | PatternIsCallback f, _, _ => ([], Finite 100, f)
    | _, LimitIsCallback f, _ => (given, Finite 100, f)
    | _, _, Some f =>
        (given,
         match limit with LimitGiven n => n | _ => Finite 100 end, f)
    | _, _, None => ([], Finite 100, noop)
    end in
  match scanPrefix actualPattern with
  | Some prefix =>
      send
        (ListObjectsV2Command (bucket config) prefix (Some actualLimit)
           None)
        (fun reply =>
           match reply with
           | Resolved result =>
               scanListed result actualCallback lookups arrival
           | Rejected error =>
               actualCallback
                 (Some (S3OperationError "Failed to scan cache entries"
                          (httpStatusCode error)
                          (Some (Rejection error))),
                  None)
           end)
  | None => throw (Native URIError)
  end.
End Scan.
End S3Store.

Arguments formatKey sanitize config key : assert.
Arguments originalKeyOf config Key : assert.
Arguments get {T} JSON_parse sanitize config {R} key callback _.
Arguments del sanitize config {R} key callback _.
Arguments set {T} JSON_stringify sanitize toString config {R} key value ttl callback _.
Arguments healthCheck config {R} callback _.
Arguments clear config {R} callback _.
Arguments scan {T} JSON_parse sanitize config {R} pattern limit callback lookups arrival _.
Arguments scanListed {T} JSON_parse sanitize config {R} result actualCallback lookups arrival _.
Arguments scanPrefix sanitize config actualPattern : assert.
Arguments forEachObject {T} config {R} objects result actualCallback remaining st issued finished failed _.
Arguments awaitLookups {T} JSON_parse sanitize config {R} objects result actualCallback issued lookups arrival st _.
Arguments lookedUp {T R} objects result actualCallback originalKey args st.
Arguments reportWhenDone {T R} objects result actualCallback st _.
Arguments processed {T} s.
Arguments found {T} s.
Arguments Build_ScanState {T} processed found.
Arguments Build_ScanResult {T} cursor entries.
Arguments isExpired {R} metadata k _.
Arguments TtlOmitted {T R}.
Arguments TtlIsCallback {T R} f.
Arguments TtlGiven {T R} ttl.
Arguments PatternOmitted {T R}.
Arguments PatternIsCallback {T R} f.
Arguments PatternGiven {T R} pattern.
Arguments LimitOmitted {T R}.
Arguments LimitIsCallback {T R} f.
Arguments LimitGiven {T R} limit.

(** ** The constructor *)

(** The options the constructor reads.  [bucket] is the property when it
    is a string and [None] for any other value, [defaultTtl] is [None]
    when the property is undefined; the other properties are absent
    ([None]) or of their declared type. *)
Module S3StoreOptions.
Record t : Type := {
  bucket : option string;
  region : option string;
  accessKeyId : option string;
  secretAccessKey : option string;
  sessionToken : option string;
  prefix : option jsstring;
  defaultTtl : option Unknown;
  storageClass : option string;
  serverSideEncryption : option string;
  maxRetries : option JSNumber;
  httpTimeout : option JSNumber;
  endpoint : option string;
  forcePathStyle : option bool
}.
End S3StoreOptions.

(** The fields of the processed options that only [createS3Client]
    reads. *)
Module Connection.
Record t : Type := {
  maxRetries : JSNumber;
  httpTimeout : JSNumber;
  accessKeyId : option string;
  secretAccessKey : option string;
  sessionToken : option string;
  endpoint : option string;
  forcePathStyle : option bool
}.
End Connection.

Module Credentials.
Record t : Type := {
  accessKeyId : string;
  secretAccessKey : string;
  sessionToken : option string
}.
End Credentials.

(** What [createS3Client] passes to [new S3Client]. *)
Module ClientConfig.
Record t : Type := {
  region : string;
  maxAttempts : JSNumber;
  requestTimeout : JSNumber;
  endpoint : option string;
  forcePathStyle : option bool;
  credentials : option Credentials.t
}.
End ClientConfig.

(** Validates and processes configuration options. *)
Definition validateAndProcessOptions (options : S3StoreOptions.t)
  : JSError + ProcessedS3StoreOptions * Connection.t :=
  match S3StoreOptions.bucket options with
  | Some bucket =>
      if truthy bucket then
        if match S3StoreOptions.defaultTtl options with
           | Some ttl => negb (isValidTTL ttl)
           | None => false
           end
        then
          inl (ConfigurationError
                 "Default TTL must be a positive number or -1 for infinite")
        else
          let processed : ProcessedS3StoreOptions * Connection.t :=
            ({| bucket := bucket;
                region := default "us-east-1" (S3StoreOptions.region options);
                prefix := default [] (S3StoreOptions.prefix options);
                defaultTtl :=
                  match S3StoreOptions.defaultTtl options with
                  | Some ttl => numberOf ttl
                  | None => Finite 60
                  end;
                storageClass := S3StoreOptions.storageClass options;
                serverSideEncryption :=
                  S3StoreOptions.serverSideEncryption options |},
             {| Connection.maxRetries :=
                  default (Finite 3) (S3StoreOptions.maxRetries options);
                Connection.httpTimeout :=
                  default (Finite 30000) (S3StoreOptions.httpTimeout options);
                Connection.accessKeyId := S3StoreOptions.accessKeyId options;
                Connection.secretAccessKey :=
                  S3StoreOptions.secretAccessKey options;
                Connection.sessionToken := S3StoreOptions.sessionToken options;
                Connection.endpoint := S3StoreOptions.endpoint options;
                Connection.forcePathStyle :=
                  S3StoreOptions.forcePathStyle options |}) in
          if truthyOpt (S3StoreOptions.accessKeyId options)
             && negb (truthyOpt (S3StoreOptions.secretAccessKey options))
          then
            inl (ConfigurationError
                   "Secret access key is required when access key ID is provided")
          else if truthyOpt (S3StoreOptions.secretAccessKey options)
                  && negb (truthyOpt (S3StoreOptions.accessKeyId options))
          then
            inl (ConfigurationError
                   "Access key ID is required when secret access key is provided")
          else inr processed
      else
        inl (ConfigurationError
               "S3 bucket name is required and must be a string")
  | None =>
      inl (ConfigurationError
             "S3 bucket name is required and must be a string")
  end.

(** Creates and configures S3 client: the configuration the client is
    created with. *)
Definition createS3Client (config : ProcessedS3StoreOptions)
    (connection : Connection.t) : ClientConfig.t :=
  let withEndpoint := truthyOpt (Connection.endpoint connection) in
  {| ClientConfig.region := region config;
     ClientConfig.maxAttempts := Connection.maxRetries connection;
     ClientConfig.requestTimeout := Connection.httpTimeout connection;
     ClientConfig.endpoint :=
       if withEndpoint then Connection.endpoint connection else None;
     ClientConfig.forcePathStyle :=
       if withEndpoint
       then Some (default true (Connection.forcePathStyle connection))
       else None;
     ClientConfig.credentials :=
       match Connection.accessKeyId connection,
             Connection.secretAccessKey connection with
       | Some accessKeyId, Some secretAccessKey =>
           if truthy accessKeyId && truthy secretAccessKey then
             Some {| Credentials.accessKeyId := accessKeyId;
                     Credentials.secretAccessKey := secretAccessKey;
                     Credentials.sessionToken :=
                       if truthyOpt (Connection.sessionToken connection)
                       then Connection.sessionToken connection
                       else None |}
           else None
       | _, _ => None
       end |}.

(** [new S3Store(options)]: the configuration and the client, or the
    error thrown. *)
Definition constructor (options : S3StoreOptions.t)
  : JSError + ProcessedS3StoreOptions * ClientConfig.t :=
  match validateAndProcessOptions options with
  | inr (config, connection) =>
      inr (config, createS3Client config connection)
  | inl error => inl error
  end.

(** * An instance for examples

    Integral payloads printed in decimal, a sanitizer that removes the
    characters that file names must not contain and the control
    characters, and a store
    configured with the prefix ["test:"]. *)

Module Example.
Definition decimal (z : Z) : string :=
  DecimalString.NilZero.string_of_int (Z.to_int z).

Definition JSON_stringify (value : JSValue Z) : NativeError + string :=
  match value with
  | Value z => inr (decimal z)
  | Null => inr "null"
  | Undefined => inl (OtherError "TypeError")
  end.

Definition JSON_parse (text : string) : NativeError + JSValue Z :=
  if String.eqb text "null" then inr Null
  else
    match trimStart text with
    | EmptyString => inl (OtherError "SyntaxError")
    | _ =>
        match parseInt10 text with
        | Some z => inr (Value z)
        | None => inl (OtherError "SyntaxError")
        end
    end.

Definition isIllegal (c : N) : bool :=
  existsb (N.eqb c) [47; 63; 60; 62; 92; 58; 42; 124; 34]%N
  || (c <=? 31)%N || ((128 <=? c) && (c <=? 159))%N.

Definition sanitize (input : jsstring) : jsstring :=
  filter (fun c => isIllegal c = false) input.

Definition toString (n : JSNumber) : string :=
  match n with
  | NaN => "NaN"
  | Infinity negative => if negative then "-Infinity" else "Infinity"
  | Finite q => decimal (Qnum q / Zpos (Qden q))
  end.

Definition config : ProcessedS3StoreOptions := {|
  bucket := "test-bucket";
  region := "us-east-1";
  prefix := js "test:";
  defaultTtl := Finite 300;
  storageClass := None;
  serverSideEncryption := None
|}.

(** A run that starts with nothing sent and nothing called. *)
Definition start {R} (replies : list Reply) (now : Z) : World R := {|
  replies := replies;
  clock := fun n => now + Z.of_nat n;
  reads := 0;
  sent := [];
  called := [];
  thrown := []
|}.

Definition emptyOutput : Output := {|
  outBody := NotReadable;
  outMetadata := None;
  Contents := None;
  IsTruncated := false;
  NextContinuationToken := None
|}.

Definition object (text : string) (metadata : gmap string string) : Output := {|
  outBody := Readable (StreamEnd (inr text));
  outMetadata := Some metadata;
  Contents := None;
  IsTruncated := false;
  NextContinuationToken := None
|}.

Definition page (keys : list jsstring) (truncated : bool)
    (next : option string) : Output := {|
  outBody := NotReadable;
  outMetadata := None;
  Contents := Some (map Some keys);
  IsTruncated := truncated;
  NextContinuationToken := next
|}.

Definition noSuchKey : ProviderError := {|
  name := Some "NoSuchKey";
  httpStatusCode := Some 404;
  message := Some "The specified key does not exist."
|}.

Definition accessDenied : ProviderError := {|
  name := Some "AccessDenied";
  httpStatusCode := Some 403;
  message := Some "Access Denied"
|}.
End Example.

Module ExampleOptions.
(** The options of the test suite. *)
Definition options : S3StoreOptions.t := {|
  S3StoreOptions.bucket := Some "test-bucket";
  S3StoreOptions.region := Some "us-east-1";
  S3StoreOptions.accessKeyId := None;
  S3StoreOptions.secretAccessKey := None;
  S3StoreOptions.sessionToken := None;
  S3StoreOptions.prefix := Some (js "test:");
  S3StoreOptions.defaultTtl := Some (IsNumber (Finite 300));
  S3StoreOptions.storageClass := None;
  S3StoreOptions.serverSideEncryption := None;
  S3StoreOptions.maxRetries := None;
  S3StoreOptions.httpTimeout := None;
  S3StoreOptions.endpoint := None;
  S3StoreOptions.forcePathStyle := None
|}.
End ExampleOptions.

(** * The vocabulary of the claims *)

(** *** Keys *)

(** A Unicode scalar value: a code point that is not a surrogate. *)
Definition isScalarValue (cp : N) : Prop :=
  (cp < 1114112 ∧ ¬ (55296 <= cp <= 57343))%N.

(** A string of code units without unpaired surrogate
    ([String.prototype.isWellFormed]). *)
Fixpoint isWellFormed (s : jsstring) : bool :=
  match s with
  | [] => true
  | c :: t =>
      if isLeadingSurrogate c then
        match t with
        | d :: t' => isTrailingSurrogate d && isWellFormed t'
        | [] => false
        end
      else negb (isTrailingSurrogate c) && (c <? 65536)%N && isWellFormed t
  end.

(** A set of code units left unescaped: ASCII without the percent
    sign. *)
Definition unescapedSet (keep : N -> bool) : Prop :=
  forall c, keep c = true -> (c < 128)%N ∧ c <> 37%N.

(** The unescaped set of [encodeURIComponent] with the slash added. *)
Definition uriUnescapedOrSlash (c : N) : bool :=
  uriUnescaped c || (c =? 47)%N.

(** No two consecutive underscores. *)
Fixpoint noDoubleUnderscore (s : jsstring) : bool :=
  match s with
  | [] => true
  | c :: t =>
      negb ((c =? 95)%N
            && match t with d :: _ => (d =? 95)%N | [] => false end)
      && noDoubleUnderscore t
  end.

(** The key with every separator replaced by the placeholder. *)
Definition withPlaceholders (key : jsstring) : jsstring :=
  flat_map (fun c => if (47 =? c)%N then SLASH_PLACEHOLDER else [c]) key.

(** *** TTL and expiry *)

(** The spec's words for a TTL that must be rejected: it is neither -1 nor
    a positive number. *)
Definition neitherMinusOneNorPositive (ttl : Unknown) : Prop :=
  match ttl with
  | NotANumber => True
  | IsNumber NaN => True
  | IsNumber (Infinity negative) => negative = true
  | IsNumber (Finite q) => ¬ (q == -1)%Q ∧ ¬ (0 < q)%Q
  end.

Definition ttlErrorArgs {T} : SetArgs T :=
  (Some (TTLError "TTL must be a positive number or -1 for infinite"),
   Undefined).


(** The attributes [set] attaches for the sentinel TTL. *)
Definition unexpiringMetadata (toString : JSNumber -> string)
    (created : Z) : gmap string string :=
  {[ "cache-created" := toString (Finite (inject_Z created));
     "cache-version" := "1.0" ]}.

(** The three shapes of the expiry attribute that [isExpired] passes
    over without reading the clock. *)
Definition expiryUnreadable (metadata : gmap string string) : Prop :=
  metadata !! "cache-ttl" = None
  ∨ metadata !! "cache-ttl" = Some EmptyString
  ∨ exists ttl, metadata !! "cache-ttl" = Some ttl ∧ parseInt10 ttl = None.

(** *** Runs of [clear] *)

(** The keys a listing collects from its pages. *)
Definition collected (pages : list Output) : list jsstring :=
  flat_map
    (fun page =>
       match Contents page with
       | Some contents => keysOf contents
       | None => []
       end)
    pages.

(** The listing commands for [pages] truncated pages and the reply after
    them. *)
Fixpoint listingCommands (config : ProcessedS3StoreOptions)
    (continuationToken : option string) (pages : list Output)
  : list Command :=
  ListObjectsV2Command (bucket config) (prefix config) None
    (if truthyOpt continuationToken then continuationToken else None)
  :: match pages with
     | [] => []
     | page :: more =>
         listingCommands config (NextContinuationToken page) more
     end.



Definition listError (error : ProviderError) : JSError :=
  S3OperationError "Failed to list objects" (httpStatusCode error)
    (Some (Rejection error)).



(** *** Runs of [scan] *)

Definition invokeAll {R} (calls : list R) : Action R := fun w =>
  {| replies := replies w; clock := clock w; reads := reads w;
     sent := sent w; called := called w ++ calls; thrown := thrown w |}.

Section ScanVocabulary.
Variable T : Type.
Variable JSON_parse : string -> NativeError + JSValue T.
Variable sanitize : jsstring -> jsstring.
Variable config : ProcessedS3StoreOptions.

(** An object of the listing without key: [!obj.Key]. *)
Definition keyless (obj : option jsstring) : bool :=
  match obj with
  | None | Some [] => true
  | Some (_ :: _) => false
  end.

(** The key of the object, if it has one, decodes. *)
Definition decodes (obj : option jsstring) : Prop :=
  match obj with
  | Some (c :: Key) => originalKeyOf config (c :: Key) <> None
  | _ => True
  end.

(** The logical keys looked up for a listing. *)
Definition issuedKeys (objects : list (option jsstring)) : list jsstring :=
  omap (fun obj =>
          match obj with
          | Some (c :: Key) => originalKeyOf config (c :: Key)
          | _ => None
          end) objects.

(** What the lookup issued [i]-th delivers to its callback. *)
Definition delivered (lookups : nat -> World (GetArgs T)) (i : nat)
    (originalKey : jsstring) : list (GetArgs T) :=
  called (get JSON_parse sanitize config originalKey invoke (lookups i)).

(** The entry a lookup contributes: its key and data when it reported
    no error and a value. *)
Definition keptEntry (issued : list jsstring)
    (lookups : nat -> World (GetArgs T)) (i : nat) : option (jsstring * T) :=
  originalKey ← issued !! i;
  args ← head (delivered lookups i originalKey);
  match args with
  | (None, Value data) => Some (originalKey, data)
  | _ => None
  end.

Definition keptEntries (issued : list jsstring)
    (lookups : nat -> World (GetArgs T)) (arrival : list nat)
  : list (jsstring * T) :=
  omap (keptEntry issued lookups) arrival.
End ScanVocabulary.

Arguments keyless obj : assert.
Arguments decodes config obj : assert.
Arguments issuedKeys config objects : assert.
Arguments delivered {T} JSON_parse sanitize config lookups i originalKey.
Arguments keptEntry {T} JSON_parse sanitize config issued lookups i.
Arguments keptEntries {T} JSON_parse sanitize config issued lookups arrival.

(** * The vocabulary of the further properties *)

(** *** Keys *)

(** The characters of a storage key after the prefix: unreserved, the
    percent sign of an escape, or the separator. *)
Definition isStorageKeyChar (c : N) : bool :=
  uriUnescaped c || (c =? 37)%N || (c =? 47)%N.

(** *** Entries and their expiry *)

(** The TTL [set] works with. *)
Definition actualTtlOf (config : ProcessedS3StoreOptions)
    (ttl : option Unknown) : JSNumber :=
  match ttl with
  | Some t => numberOf t
  | None => defaultTtl config
  end.

(** What a store that keeps body and attributes as they were put answers
    to a read of the object. *)
Definition storedObject (params : PutObjectCommandInput) : Output := {|
  outBody := Readable (StreamEnd (inr (Body params)));
  outMetadata := Some (Metadata params);
  Contents := None;
  IsTruncated := false;
  NextContinuationToken := None
|}.

(** The entry with these attributes has not expired at [now]. *)
Definition unexpiredAt (metadata : gmap string string) (now : Z) : Prop :=
  match metadata !! "cache-ttl" with
  | Some ttl =>
      match parseInt10 ttl with
      | Some expirationTime => now <= expirationTime
      | None => True
      end
  | None => True
  end.

(** What the callback of [get] receives for the body of an entry that is
    served. *)
Definition bodyOutcome {T} (JSON_parse : string -> NativeError + JSValue T)
    (body : ResponseBody) : GetArgs T :=
  match body with
  | Readable (StreamEnd (inr text)) =>
      match JSON_parse text with
      | inr value => (None, value)
      | inl parseError =>
          (Some (SerializationError "Failed to parse cached value"
                   (Some parseError)), Undefined)
      end
  | Readable (StreamEnd (inl error)) =>
      (Some (S3OperationError "Failed to convert stream to string" None
               (Some error)), Undefined)
  | Readable (StreamError error) =>
      (Some (S3OperationError "Failed to read stream" None (Some error)),
       Undefined)
  | NotReadable =>
      (Some (S3OperationError "Unexpected response body format" None None),
       Undefined)
  end.

(** *** Runs of [scan] *)



(** * Lemmas and theorems *)

(** ** The key codec *)

Ltac Zify.zify_post_hook ::= Z.to_euclidean_division_equations.

(** Case analysis on the comparisons of code units in the goal. *)
Ltac code_unit_cases :=
  repeat match goal with
    | |- context [(?a <? ?b)%N] => destruct (N.ltb_spec a b); try lia
    | |- context [(?a <=? ?b)%N] => destruct (N.leb_spec a b); try lia
    | |- context [(?a =? ?b)%N] => destruct (N.eqb_spec a b); try lia
    end.

Section URIRoundTrip.
Local Open Scope N_scope.

Lemma hexValue_hexDigit d : d < 16 -> hexValue (hexDigit d) = Some d.
Proof.
  intros Hd. unfold hexValue, hexDigit, isDecimalDigit.
  code_unit_cases; cbn [andb]; code_unit_cases; f_equal; lia.
Qed.

Lemma ParseHexOctet_escape b :
  b < 256 -> ParseHexOctet (hexDigit (b / 16)) (hexDigit (b mod 16)) = Some b.
Proof.
  intros Hb. unfold ParseHexOctet.
  rewrite !hexValue_hexDigit by lia. f_equal. lia.
Qed.

Lemma tokens_escape octets : forall s ts,
  Forall (fun b => b < 256) octets ->
  tokens s = Some ts ->
  tokens (escape octets ++ s) = Some (map Octet octets ++ ts).
Proof.
  induction octets as [| b more IH]; intros s ts Hb Hs; [exact Hs |].
  inversion Hb as [| ? ? Hlt Hmore]; subst.
  unfold escape. cbn [flat_map escapeOctet app tokens].
  change (37 =? 37) with true. cbv iota.
  rewrite ParseHexOctet_escape by exact Hlt.
  fold (escape more). rewrite (IH s ts) by assumption. reflexivity.
Qed.

Lemma tokens_literal c s ts :
  c <> 37 -> tokens s = Some ts -> tokens (c :: s) = Some (Lit c :: ts).
Proof.
  intros Hc Hs. cbn [tokens].
  destruct (N.eqb_spec c 37); [contradiction |]. rewrite Hs. reflexivity.
Qed.

Lemma utf8_octets cp :
  cp < 1114112 -> Forall (fun b => b < 256) (utf8 cp).
Proof.
  intros Hcp. unfold utf8. code_unit_cases; repeat constructor; lia.
Qed.

Lemma decodeTokens_utf8 cp ts s :
  isScalarValue cp ->
  decodeTokens ts = Some s ->
  decodeTokens (map Octet (utf8 cp) ++ ts)
  = Some (UTF16EncodeCodePoint cp ++ s).
Proof.
  intros [Hmax Hsur] Hts. unfold utf8.
  destruct (N.ltb_spec cp 128);
    [| destruct (N.ltb_spec cp 2048); [| destruct (N.ltb_spec cp 65536)]];
    cbn [map app decodeTokens].
  - destruct (N.ltb_spec cp 128); [| lia]. rewrite Hts.
    unfold UTF16EncodeCodePoint. destruct (N.leb_spec cp 65535); [| lia].
    reflexivity.
  - destruct (N.ltb_spec (192 + cp / 64) 128); [lia |].
    destruct (N.ltb_spec (192 + cp / 64) 192); [lia |].
    destruct (N.ltb_spec (192 + cp / 64) 224); [| lia].
    unfold utf8Decode2, isContinuation.
    replace ((192 + cp / 64 - 192) * 64 + (128 + cp mod 64 - 128)) with cp
      by lia.
    destruct (N.leb_spec 128 (128 + cp mod 64)); [| lia].
    destruct (N.ltb_spec (128 + cp mod 64) 192); [| lia].
    destruct (N.leb_spec 128 cp); [| lia].
    cbn [andb]. rewrite Hts.
    unfold UTF16EncodeCodePoint. destruct (N.leb_spec cp 65535); [| lia].
    reflexivity.
  - destruct (N.ltb_spec (224 + cp / 4096) 128); [lia |].
    destruct (N.ltb_spec (224 + cp / 4096) 192); [lia |].
    destruct (N.ltb_spec (224 + cp / 4096) 224); [lia |].
    destruct (N.ltb_spec (224 + cp / 4096) 240); [| lia].
    unfold utf8Decode3, isContinuation.
    replace ((224 + cp / 4096 - 224) * 4096
             + (128 + (cp / 64) mod 64 - 128) * 64 + (128 + cp mod 64 - 128))
      with cp by lia.
    destruct (N.leb_spec 128 (128 + (cp / 64) mod 64)); [| lia].
    destruct (N.ltb_spec (128 + (cp / 64) mod 64) 192); [| lia].
    destruct (N.leb_spec 128 (128 + cp mod 64)); [| lia].
    destruct (N.ltb_spec (128 + cp mod 64) 192); [| lia].
    destruct (N.leb_spec 2048 cp); [| lia].
    assert (Hns : (55296 <=? cp) && (cp <=? 57343) = false)
      by (destruct (N.leb_spec 55296 cp), (N.leb_spec cp 57343);
          try reflexivity; lia).
    rewrite Hns. cbn [andb negb]. rewrite Hts.
    unfold UTF16EncodeCodePoint. destruct (N.leb_spec cp 65535); [| lia].
    reflexivity.
  - destruct (N.ltb_spec (240 + cp / 262144) 128); [lia |].
    destruct (N.ltb_spec (240 + cp / 262144) 192); [lia |].
    destruct (N.ltb_spec (240 + cp / 262144) 224); [lia |].
    destruct (N.ltb_spec (240 + cp / 262144) 240); [lia |].
    destruct (N.ltb_spec (240 + cp / 262144) 248); [| lia].
    unfold utf8Decode4, isContinuation.
    replace ((240 + cp / 262144 - 240) * 262144
             + (128 + (cp / 4096) mod 64 - 128) * 4096
             + (128 + (cp / 64) mod 64 - 128) * 64 + (128 + cp mod 64 - 128))
      with cp by lia.
    destruct (N.leb_spec 128 (128 + (cp / 4096) mod 64)); [| lia].
    destruct (N.ltb_spec (128 + (cp / 4096) mod 64) 192); [| lia].
    destruct (N.leb_spec 128 (128 + (cp / 64) mod 64)); [| lia].
    destruct (N.ltb_spec (128 + (cp / 64) mod 64) 192); [| lia].
    destruct (N.leb_spec 128 (128 + cp mod 64)); [| lia].
    destruct (N.ltb_spec (128 + cp mod 64) 192); [| lia].
    destruct (N.leb_spec 65536 cp); [| lia].
    destruct (N.leb_spec cp 1114111); [| lia].
    cbn [andb]. rewrite Hts. reflexivity.
Qed.

Lemma surrogate_pair_scalar lead trail :
  isLeadingSurrogate lead = true ->
  isTrailingSurrogate trail = true ->
  isScalarValue (UTF16SurrogatePairToCodePoint lead trail)
  ∧ UTF16EncodeCodePoint (UTF16SurrogatePairToCodePoint lead trail)
    = [lead; trail].
Proof.
  unfold isLeadingSurrogate, isTrailingSurrogate, isScalarValue,
    UTF16SurrogatePairToCodePoint, UTF16EncodeCodePoint.
  rewrite !andb_true_iff, !N.leb_le. intros [H1 H2] [H3 H4].
  split; [lia |].
  destruct (N.leb_spec ((lead - 55296) * 1024 + (trail - 56320) + 65536) 65535);
    [lia |].
  f_equal; [lia | f_equal; lia].
Qed.
End URIRoundTrip.

Section WellFormed.
Local Open Scope N_scope.

Lemma wellFormed_ind (P : jsstring -> Prop) :
  P [] ->
  (forall c t,
     c < 65536 -> isLeadingSurrogate c = false ->
     isTrailingSurrogate c = false ->
     isWellFormed t = true -> P t -> P (c :: t)) ->
  (forall lead trail t,
     isLeadingSurrogate lead = true -> isTrailingSurrogate trail = true ->
     isWellFormed t = true -> P t -> P (lead :: trail :: t)) ->
  forall s, isWellFormed s = true -> P s.
Proof.
  intros Hnil Hunit Hpair s.
  remember (length s) as n eqn:Hn.
  assert (Hle : (length s <= n)%nat) by lia. clear Hn.
  revert s Hle. induction n as [| n IH]; intros s Hle Hwf.
  - destruct s; [exact Hnil | simpl in Hle; lia].
  - destruct s as [| c t]; [exact Hnil |].
    cbn [isWellFormed] in Hwf. cbn [length] in Hle.
    destruct (isLeadingSurrogate c) eqn:Hlead.
    + destruct t as [| d t']; [discriminate Hwf |].
      apply andb_true_iff in Hwf as [Htrail Hwf]. cbn [length] in Hle.
      apply Hpair; try assumption. apply IH; [lia | exact Hwf].
    + apply andb_true_iff in Hwf as [Hc Hwf].
      apply andb_true_iff in Hc as [Htrail Hc].
      apply negb_true_iff in Htrail. apply N.ltb_lt in Hc.
      apply Hunit; try assumption. apply IH; [lia | exact Hwf].
Qed.

Lemma uriUnescaped_ascii : unescapedSet uriUnescaped.
Proof.
  intros c. unfold uriUnescaped, isAlpha, isDecimalDigit, isMark.
  cbn [existsb]. code_unit_cases; cbn [andb orb]; discriminate || (split; lia).
Qed.

Lemma uriUnescapedOrSlash_ascii : unescapedSet uriUnescapedOrSlash.
Proof.
  intros c. unfold uriUnescapedOrSlash. intros H.
  apply orb_true_iff in H as [H | H].
  - apply uriUnescaped_ascii, H.
  - apply N.eqb_eq in H. subst. split; lia.
Qed.

Lemma unescaped_not_surrogate keep c :
  unescapedSet keep -> keep c = true ->
  isLeadingSurrogate c = false ∧ isTrailingSurrogate c = false.
Proof.
  intros Hkeep Hc. destruct (Hkeep c Hc) as [Hlt _].
  unfold isLeadingSurrogate, isTrailingSurrogate.
  code_unit_cases; split; reflexivity.
Qed.

(** [decodeURIComponent] undoes the encoding of a well-formed string,
    whatever set of ASCII characters was left unescaped. *)
Lemma utf8_not_ascii cp b :
  In b (utf8 cp) -> b = cp ∨ 128 <= b.
Proof.
  unfold utf8. code_unit_cases; cbn [In]; intuition lia.
Qed.

Lemma Encode_tokens keep s :
  unescapedSet keep -> isWellFormed s = true ->
  exists e ts,
    Encode keep s = Some e ∧ tokens e = Some ts ∧ decodeTokens ts = Some s
    ∧ (keep 47 = true -> ¬ In (Octet 47) ts).
Proof.
  intros Hkeep. revert s. apply wellFormed_ind.
  - exists [], []. repeat split. intros _ [].
  - intros c t Hc Hlead Htrail _ (e & ts & He & Ht & Hd & Hs).
    cbn [Encode]. rewrite He, Hlead, Htrail.
    destruct (keep c) eqn:Hk.
    + exists (c :: e), (Lit c :: ts). split; [reflexivity |].
      split; [| split].
      * apply tokens_literal; [apply (Hkeep c Hk) | exact Ht].
      * cbn [decodeTokens]. rewrite Hd. reflexivity.
      * intros H47 [Hin | Hin]; [discriminate Hin | exact (Hs H47 Hin)].
    + exists (escape (utf8 c) ++ e), (map Octet (utf8 c) ++ ts).
      split; [reflexivity |]. split; [| split].
      * apply tokens_escape; [apply utf8_octets; lia | exact Ht].
      * rewrite (decodeTokens_utf8 c ts t); [| | exact Hd].
        -- unfold UTF16EncodeCodePoint.
           destruct (N.leb_spec c 65535); [reflexivity | lia].
        -- unfold isLeadingSurrogate, isTrailingSurrogate in *.
           split; [lia |]. intros [H1 H2]. revert Hlead Htrail.
           code_unit_cases; discriminate.
      * intros H47 Hin. apply in_app_iff in Hin as [Hin | Hin];
          [| exact (Hs H47 Hin)].
        apply in_map_iff in Hin as (b & [= ->] & Hb).
        destruct (utf8_not_ascii c 47 Hb) as [<- | Hge]; [congruence | lia].
  - intros lead trail t Hlead Htrail _ (e & ts & He & Ht & Hd & Hs).
    cbn [Encode]. rewrite He, Hlead, Htrail.
    assert (Hk : keep lead = false).
    { destruct (keep lead) eqn:Hk; [| reflexivity].
      destruct (unescaped_not_surrogate keep lead Hkeep Hk). congruence. }
    assert (Hnt : isTrailingSurrogate lead = false).
    { revert Hlead. unfold isLeadingSurrogate, isTrailingSurrogate.
      code_unit_cases; cbn [andb]; congruence. }
    rewrite Hk, Hnt.
    destruct (surrogate_pair_scalar lead trail Hlead Htrail) as [Hsv H16].
    exists (escape (utf8 (UTF16SurrogatePairToCodePoint lead trail)) ++ e),
      (map Octet (utf8 (UTF16SurrogatePairToCodePoint lead trail)) ++ ts).
    split; [reflexivity |]. split; [| split].
    + apply tokens_escape; [apply utf8_octets, Hsv | exact Ht].
    + rewrite (decodeTokens_utf8 _ ts t Hsv Hd), H16. reflexivity.
    + intros H47 Hin. apply in_app_iff in Hin as [Hin | Hin];
        [| exact (Hs H47 Hin)].
      apply in_map_iff in Hin as (b & [= ->] & Hb).
      destruct (utf8_not_ascii _ 47 Hb) as [Heq | Hge]; [| lia].
      unfold UTF16SurrogatePairToCodePoint in Heq. lia.
Qed.

Lemma decodeURIComponent_Encode keep s e :
  unescapedSet keep -> isWellFormed s = true ->
  Encode keep s = Some e -> decodeURIComponent e = Some s.
Proof.
  intros Hkeep Hwf He.
  destruct (Encode_tokens keep s Hkeep Hwf) as (e' & ts & He' & Ht & Hd & _).
  assert (e' = e) by congruence. subst e'.
  unfold decodeURIComponent. rewrite Ht. exact Hd.
Qed.
End WellFormed.

Section Replace.
Local Open Scope N_scope.

Lemma stripPrefix_app p s : stripPrefix p (p ++ s) = Some s.
Proof.
  induction p as [| a p IH]; [reflexivity |].
  cbn [app stripPrefix]. rewrite N.eqb_refl. exact IH.
Qed.

Lemma startsWith_other a p c s : a <> c -> startsWith (a :: p) (c :: s) = false.
Proof.
  intros H. unfold startsWith. cbn [stripPrefix].
  destruct (N.eqb_spec a c); [contradiction | reflexivity].
Qed.

Lemma replaceFirst_prefix p s : replaceFirst p [] (p ++ s) = s.
Proof.
  destruct p as [| a p].
  - destruct s; reflexivity.
  - cbn [app replaceFirst]. change (a :: p ++ s) with ((a :: p) ++ s).
    rewrite stripPrefix_app. reflexivity.
Qed.

Lemma replaceAll_single a rep s :
  replaceAll [a] rep s = flat_map (fun c => if a =? c then rep else [c]) s.
Proof.
  unfold replaceAll. induction s as [| c t IH]; [reflexivity |].
  cbn [replaceAll_from flat_map length Nat.pred].
  unfold startsWith. cbn [stripPrefix].
  destruct (a =? c); rewrite IH; reflexivity.
Qed.

Lemma replaceAll_from_skip pat rep l : forall s,
  replaceAll_from pat rep (length l) (l ++ s) = replaceAll_from pat rep 0 s.
Proof.
  induction l as [| c l IH]; intros s; [reflexivity |].
  cbn [length app replaceAll_from]. apply IH.
Qed.

Lemma replaceAll_match a pat rep s :
  replaceAll (a :: pat) rep ((a :: pat) ++ s)
  = rep ++ replaceAll (a :: pat) rep s.
Proof.
  unfold replaceAll. cbn [app replaceAll_from length Nat.pred].
  change (a :: pat ++ s) with ((a :: pat) ++ s).
  unfold startsWith. rewrite stripPrefix_app.
  rewrite replaceAll_from_skip. reflexivity.
Qed.

Lemma replaceAll_other a pat rep c s :
  a <> c ->
  replaceAll (a :: pat) rep (c :: s) = c :: replaceAll (a :: pat) rep s.
Proof.
  intros H. unfold replaceAll. cbn [replaceAll_from].
  rewrite startsWith_other by exact H. reflexivity.
Qed.

Lemma replaceAll_block a pat rep l : forall s,
  Forall (fun c => a <> c) l ->
  replaceAll (a :: pat) rep (l ++ s) = l ++ replaceAll (a :: pat) rep s.
Proof.
  induction l as [| c l IH]; intros s Hl; [reflexivity |].
  inversion Hl; subst. cbn [app].
  rewrite replaceAll_other by assumption. rewrite IH by assumption.
  reflexivity.
Qed.

Lemma Encode_unescaped keep l : forall s,
  Forall (fun c => keep c = true) l ->
  Encode keep (l ++ s) = app l <$> Encode keep s.
Proof.
  induction l as [| c l IH]; intros s Hl.
  - cbn [app]. destruct (Encode keep s); reflexivity.
  - inversion Hl as [| ? ? Hc Hmore]; subst. cbn [app Encode].
    rewrite Hc, IH by assumption. destruct (Encode keep s); reflexivity.
Qed.

Lemma placeholder_unescaped :
  Forall (fun c => uriUnescaped c = true) SLASH_PLACEHOLDER.
Proof. repeat constructor. Qed.

Lemma escape_no_underscore octets :
  Forall (fun b => b < 256) octets ->
  Forall (fun c => 95 <> c ∧ 47 <> c) (escape octets).
Proof.
  induction 1 as [| b more Hb _ IH]; [constructor |].
  unfold escape. cbn [flat_map escapeOctet app]. fold (escape more).
  unfold hexDigit.
  repeat (constructor; [code_unit_cases; split; lia |]). exact IH.
Qed.

Lemma escape_utf8_head cp :
  exists rest, escape (utf8 cp) = 37 :: rest.
Proof.
  unfold utf8. code_unit_cases; eexists; reflexivity.
Qed.

(** The first code unit of an encoding: the code unit itself when it is
    left unescaped, the percent sign otherwise. *)
Lemma Encode_head keep c t e :
  Encode keep (c :: t) = Some e ->
  exists rest, e = (if keep c then c else 37) :: rest.
Proof.
  cbn [Encode]. destruct (keep c).
  - destruct (Encode keep t); [| discriminate].
    intros [= <-]. eexists. reflexivity.
  - destruct (isTrailingSurrogate c); [discriminate |].
    destruct (isLeadingSurrogate c).
    + destruct t as [| d t']; [discriminate |].
      destruct (isTrailingSurrogate d); [| discriminate].
      destruct (Encode keep t'); [| discriminate].
      intros [= <-].
      destruct (escape_utf8_head (UTF16SurrogatePairToCodePoint c d))
        as [rest ->].
      eexists. reflexivity.
    + destruct (Encode keep t); [| discriminate].
      intros [= <-]. destruct (escape_utf8_head c) as [rest ->].
      eexists. reflexivity.
Qed.

Lemma noDoubleUnderscore_tail c t :
  noDoubleUnderscore (c :: t) = true -> noDoubleUnderscore t = true.
Proof. cbn [noDoubleUnderscore]. intros H. apply andb_true_iff in H. tauto. Qed.

(** After an underscore of the key the encoding does not continue like
    the placeholder does after its first underscore. *)
Lemma no_placeholder_after_underscore t e :
  noDoubleUnderscore (95 :: t) = true ->
  encodeURIComponent (withPlaceholders t) = Some e ->
  startsWith SLASH_PLACEHOLDER (95 :: e) = false.
Proof.
  intros Hdu He. destruct t as [| d t']; [injection He as <-; reflexivity |].
  cbn [noDoubleUnderscore] in Hdu.
  apply andb_true_iff in Hdu as [Hd _]. apply negb_true_iff in Hd.
  change (95 =? 95) with true in Hd. cbn [andb] in Hd.
  apply N.eqb_neq in Hd.
  unfold withPlaceholders in He. cbn [flat_map] in He.
  fold (withPlaceholders t') in He.
  destruct (N.eqb_spec 47 d) as [<- | Hslash].
  - unfold encodeURIComponent in He.
    rewrite Encode_unescaped in He by exact placeholder_unescaped.
    destruct (Encode uriUnescaped (withPlaceholders t')); [| discriminate].
    injection He as <-. reflexivity.
  - cbn [app] in He. apply Encode_head in He as [rest ->].
    destruct (uriUnescaped d).
    + unfold startsWith, SLASH_PLACEHOLDER. cbn [stripPrefix js map
        list_ascii_of_string].
      change (N_of_ascii "_") with 95. change (95 =? 95) with true.
      cbv iota. destruct (N.eqb_spec 95 d); [congruence | reflexivity].
    + reflexivity.
Qed.
End Replace.

Section RestoreSlashes.
Local Open Scope N_scope.

Lemma SLASH_PLACEHOLDER_head :
  SLASH_PLACEHOLDER = 95 :: [95; 83; 76; 65; 83; 72; 95; 95].
Proof. reflexivity. Qed.

Lemma replaceAll_escape octets e :
  Forall (fun b => b < 256) octets ->
  replaceAll SLASH_PLACEHOLDER SLASH (escape octets ++ e)
  = escape octets ++ replaceAll SLASH_PLACEHOLDER SLASH e.
Proof.
  intros H. rewrite SLASH_PLACEHOLDER_head. apply replaceAll_block.
  eapply Forall_impl; [apply escape_no_underscore, H |].
  intros c [Hc _]. exact Hc.
Qed.

(** Restoring the separators: on a key without two consecutive
    underscores, the placeholder occurs in the encoding exactly where a
    separator was replaced, so replacing it gives the encoding of the key
    that leaves the separators as they are. *)
Lemma restore_slashes key :
  isWellFormed key = true ->
  noDoubleUnderscore key = true ->
  exists e,
    encodeURIComponent (withPlaceholders key) = Some e
    ∧ Encode uriUnescapedOrSlash key
      = Some (replaceAll SLASH_PLACEHOLDER SLASH e).
Proof.
  revert key. apply (wellFormed_ind (fun key =>
    noDoubleUnderscore key = true ->
    exists e,
      encodeURIComponent (withPlaceholders key) = Some e
      ∧ Encode uriUnescapedOrSlash key
        = Some (replaceAll SLASH_PLACEHOLDER SLASH e))).
  - intros _. exists []. split; reflexivity.
  - intros c t Hc Hlead Htrail _ IH Hdu.
    destruct (IH (noDoubleUnderscore_tail c t Hdu)) as (e & He & Hk).
    unfold withPlaceholders. cbn [flat_map]. fold (withPlaceholders t).
    unfold encodeURIComponent in *.
    destruct (N.eqb_spec 47 c) as [<- | Hslash].
    + rewrite Encode_unescaped by exact placeholder_unescaped.
      rewrite He. exists (SLASH_PLACEHOLDER ++ e). split; [reflexivity |].
      rewrite SLASH_PLACEHOLDER_head, replaceAll_match.
      rewrite <- SLASH_PLACEHOLDER_head.
      cbn [Encode]. change (uriUnescapedOrSlash 47) with true.
      cbv iota. rewrite Hk. reflexivity.
    + cbn [app Encode]. rewrite He, Hk, Hlead, Htrail.
      assert (Hsame : uriUnescapedOrSlash c = uriUnescaped c).
      { unfold uriUnescapedOrSlash.
        destruct (N.eqb_spec c 47); [congruence |]. apply orb_false_r. }
      rewrite Hsame. destruct (uriUnescaped c) eqn:Hun.
      * exists (c :: e). split; [reflexivity |]. cbn [fmap option_fmap option_map].
        f_equal. destruct (N.eqb_spec 95 c) as [<- | Hunder].
        -- unfold replaceAll at 2. cbn [replaceAll_from].
           rewrite (no_placeholder_after_underscore t e Hdu He).
           reflexivity.
        -- rewrite SLASH_PLACEHOLDER_head.
           rewrite replaceAll_other by exact Hunder. reflexivity.
      * exists (escape (utf8 c) ++ e). split; [reflexivity |].
        rewrite replaceAll_escape by (apply utf8_octets; lia).
        reflexivity.
  - intros lead trail t Hlead Htrail _ IH Hdu.
    destruct (IH (noDoubleUnderscore_tail _ _
                    (noDoubleUnderscore_tail _ _ Hdu))) as (e & He & Hk).
    assert (Hl : 47 <> lead ∧ 47 <> trail).
    { revert Hlead Htrail. unfold isLeadingSurrogate, isTrailingSurrogate.
      code_unit_cases; cbn [andb]; try discriminate; intros; lia. }
    destruct Hl as [Hl Ht].
    unfold withPlaceholders. cbn [flat_map]. fold (withPlaceholders t).
    destruct (N.eqb_spec 47 lead); [contradiction |].
    destruct (N.eqb_spec 47 trail); [contradiction |].
    unfold encodeURIComponent in *. cbn [app Encode].
    rewrite He, Hk, Hlead, Htrail.
    assert (Hun : uriUnescaped lead = false).
    { destruct (uriUnescaped lead) eqn:Hun; [| reflexivity].
      destruct (unescaped_not_surrogate _ lead uriUnescaped_ascii Hun).
      congruence. }
    assert (Hus : uriUnescapedOrSlash lead = false).
    { unfold uriUnescapedOrSlash. rewrite Hun.
      destruct (N.eqb_spec lead 47); [congruence | reflexivity]. }
    assert (Hnt : isTrailingSurrogate lead = false).
    { revert Hlead. unfold isLeadingSurrogate, isTrailingSurrogate.
      code_unit_cases; cbn [andb]; congruence. }
    rewrite Hun, Hus, Hnt.
    destruct (surrogate_pair_scalar lead trail Hlead Htrail) as [[Hmax _] _].
    exists (escape (utf8 (UTF16SurrogatePairToCodePoint lead trail)) ++ e).
    split; [reflexivity |].
    rewrite replaceAll_escape by (apply utf8_octets; exact Hmax).
    reflexivity.
Qed.

End RestoreSlashes.




(** ** TTL validation in [set] *)

Lemma isValidTTL_false (ttl : Unknown) :
  isValidTTL ttl = false ↔ neitherMinusOneNorPositive ttl.
Proof.
  destruct ttl as [[| negative | q] |]; simpl; try tauto.
  - destruct negative; simpl; split; congruence.
  - rewrite orb_false_iff, negb_false_iff.
    rewrite <- not_true_iff_false, Qeq_bool_iff, Qle_bool_iff.
    split; intros [H1 H2]; split; auto.
    + intros H. apply (Qlt_not_le _ _ H H2).
    + apply Qnot_lt_le. exact H2.
Qed.

(** *** What the primitives leave unchanged *)

Ltac world_simpl := cbn [replies clock reads sent called thrown].

Section WorldLemmas.
Context {R : Type}.
Implicit Types (w : World R) (c : Command).

Lemma send_settled c (h : Reply -> Action R) w r rest :
  replies w = r :: rest ->
  send c h w =
  h r {| replies := rest; clock := clock w; reads := reads w;
         sent := sent w ++ [c]; called := called w; thrown := thrown w |}.
Proof. intros H. unfold send, nextReply. simpl. rewrite H. reflexivity. Qed.

Lemma send_pending c (h : Reply -> Action R) w :
  replies w = [] -> send c h w = logSent c w.
Proof. intros H. unfold send, nextReply. simpl. rewrite H. reflexivity. Qed.

(** A command followed by handlers that send nothing is the only command
    sent. *)
Lemma sent_send c (h : Reply -> Action R) w :
  (forall r w', sent (h r w') = sent w') ->
  sent (send c h w) = sent w ++ [c].
Proof.
  intros Hh. destruct (replies w) as [| r rest] eqn:E.
  - rewrite send_pending by assumption. reflexivity.
  - rewrite (send_settled _ _ _ _ _ E), Hh. reflexivity.
Qed.
End WorldLemmas.

Section SetValidation.
Variable T : Type.
Variable JSON_stringify : JSValue T -> NativeError + string.
Variable sanitize : jsstring -> jsstring.
Variable toString : JSNumber -> string.
Variable config : ProcessedS3StoreOptions.

Local Abbreviation set' := (set JSON_stringify sanitize toString config).

(** An invalid TTL ends [set] with the call of the callback and nothing
    else, whatever the key and the value. *)
Lemma set_invalid_ttl {R} key value ttl (callback : SetArgs T -> Action R) w :
  isValidTTL ttl = false ->
  set' key value (TtlGiven ttl) callback w = callback ttlErrorArgs w.
Proof. intros H. unfold set. rewrite H. reflexivity. Qed.


Lemma unexpiringMetadata_keys created :
  unexpiringMetadata toString created !! "cache-ttl" = None
  ∧ dom (unexpiringMetadata toString created)
    = ({[ "cache-created"; "cache-version" ]} : gset string).
Proof.
  unfold unexpiringMetadata. split.
  - rewrite lookup_insert_ne by discriminate.
    apply lookup_singleton_ne. discriminate.
  - rewrite dom_insert_L, dom_singleton_L. reflexivity.
Qed.

(** The command [set] sends for the sentinel TTL, if it sends one. *)
Lemma set_infinite_ttl_sent n key value (w : World (SetArgs T)) :
  strictEquals n (-1) = true ->
  (sent (set' key value (TtlGiven (IsNumber n)) invoke w) = sent w
   ∧ (value = Undefined
      ∨ (exists e, formatKey sanitize config key = inl e)
      ∨ (exists e, JSON_stringify value = inl e)))
  ∨ exists s3Key serializedValue,
      formatKey sanitize config key = inr s3Key
      ∧ JSON_stringify value = inr serializedValue
      ∧ value <> Undefined
      ∧ sent (set' key value (TtlGiven (IsNumber n)) invoke w) =
        sent w ++ [PutObjectCommand {|
          Bucket := bucket config;
          Key := s3Key;
          Body := serializedValue;
          ContentType := "application/json";
          Metadata := unexpiringMetadata toString (clock w (reads w));
          StorageClass :=
            if truthyOpt (storageClass config)
            then storageClass config else None;
          ServerSideEncryption :=
            if truthyOpt (serverSideEncryption config)
            then serverSideEncryption config else None |}].
Proof.
  intros Hn. unfold set.
  assert (Hv : isValidTTL (IsNumber n) = true) by (simpl; rewrite Hn; reflexivity).
  rewrite Hv. cbn [numberOf]. rewrite Hn.
  destruct (formatKey sanitize config key) as [e | s3Key] eqn:Ek;
    [destruct value; left; (split; [reflexivity | eauto]) |].
  destruct (JSON_stringify value) as [e | text] eqn:Es;
    [destruct value; left; (split; [reflexivity | eauto]) |].
  destruct value as [| | t]; [left; (split; [reflexivity | eauto]) | |];
    right; exists s3Key, text; repeat split; try discriminate;
    unfold DateNow; rewrite sent_send;
    try (intros [] ?; reflexivity); reflexivity.
Qed.
End SetValidation.

(** *** The claims about [set] *)

(** C4: a call to [set] with a supplied TTL that is neither -1 nor a
    positive number (0, a negative number other than -1, NaN, a value that
    is not a number) calls the callback once with the TTLError; no command
    is sent to the store and no reply is consumed. *)
Theorem set_invalid_ttl_reports_TTLError
    (T : Type) (JSON_stringify : JSValue T -> NativeError + string)
    (sanitize : jsstring -> jsstring) (toString : JSNumber -> string)
    (config : ProcessedS3StoreOptions)
    (key : jsstring) (value : JSValue T) (ttl : Unknown)
    (w : World (SetArgs T)) :
  neitherMinusOneNorPositive ttl ->
  let w' :=
    set JSON_stringify sanitize toString config key value (TtlGiven ttl)
      invoke w in
  called w' = called w ++ [ttlErrorArgs]
  ∧ sent w' = sent w
  ∧ replies w' = replies w.
Proof.
  intros H w'. subst w'. apply isValidTTL_false in H.
  rewrite set_invalid_ttl by assumption. repeat split.
Qed.

Lemma set_invalid_ttl_reports_TTLError_witness :
  neitherMinusOneNorPositive (IsNumber (Finite 0))
  ∧ called
      (set Example.JSON_stringify Example.sanitize Example.toString
         Example.config (js "invalid:ttl") (Value 5)
         (TtlGiven (IsNumber (Finite 0))) invoke
         (Example.start [Resolved Example.emptyOutput] 1000))
    = [ttlErrorArgs].
Proof.
  assert (H : neitherMinusOneNorPositive (IsNumber (Finite 0))).
  { simpl. split; intros H; vm_compute in H; discriminate. }
  split; [exact H |].
  exact (proj1 (set_invalid_ttl_reports_TTLError Z Example.JSON_stringify
    Example.sanitize Example.toString Example.config (js "invalid:ttl")
    (Value 5) (IsNumber (Finite 0))
    (Example.start [Resolved Example.emptyOutput] 1000) H)).
Defined.



(** C3: a call to [set] with the TTL -1 sends at most one command, and
    the metadata of that command has exactly the attributes
    [cache-created] and [cache-version]: no [cache-ttl] is written.  For a
    valid key and a value that serialises, the command is sent. *)
Theorem set_infinite_ttl_writes_no_expiry
    (T : Type) (JSON_stringify : JSValue T -> NativeError + string)
    (sanitize : jsstring -> jsstring) (toString : JSNumber -> string)
    (config : ProcessedS3StoreOptions)
    (key : jsstring) (value : JSValue T) (w : World (SetArgs T)) :
  let w' :=
    set JSON_stringify sanitize toString config key value
      (TtlGiven (IsNumber (Finite (-1)))) invoke w in
  (exists new, sent w' = sent w ++ new
     ∧ (length new <= 1)%nat
     ∧ forall input, In (PutObjectCommand input) new ->
         Metadata input !! "cache-ttl" = None
         ∧ dom (Metadata input)
           = ({[ "cache-created"; "cache-version" ]} : gset string))
  ∧ (forall s3Key serializedValue,
       formatKey sanitize config key = inr s3Key ->
       JSON_stringify value = inr serializedValue ->
       value <> Undefined ->
       exists input,
         sent w' = sent w ++ [PutObjectCommand input]
         ∧ Key input = s3Key ∧ Body input = serializedValue
         ∧ Metadata input = unexpiringMetadata toString (clock w (reads w))).
Proof.
  intros w'. subst w'.
  destruct (set_infinite_ttl_sent T JSON_stringify sanitize toString config
              (Finite (-1)) key value w eq_refl)
    as [[H Hfail] | (s3Key & text & Hk & Hs & Hv & H)]; rewrite H; split.
  - exists []. rewrite app_nil_r. split; [reflexivity |].
    split; [simpl; lia | intros ? []].
  - intros s3Key text Hk Hs Hv.
    destruct Hfail as [-> | [[e He] | [e He]]]; congruence.
  - eexists. split; [reflexivity |]. split; [simpl; lia |].
    intros input [[= <-] | []]. apply unexpiringMetadata_keys.
  - intros s3Key' text' Hk' Hs' _. eexists. split; [reflexivity |].
    simpl. repeat split; congruence.
Qed.

(** *** Claims about [get] *)

Section GetLemmas.
Variable T : Type.
Variable JSON_parse : string -> NativeError + JSValue T.
Variable sanitize : jsstring -> jsstring.
Variable config : ProcessedS3StoreOptions.

Local Abbreviation get' := (get JSON_parse sanitize config).
Local Abbreviation del' := (del sanitize config).

Lemma isNotFound_true error :
  isNotFound error = true
  ↔ name error = Some "NoSuchKey" ∨ httpStatusCode error = Some 404.
Proof.
  unfold isNotFound.
  rewrite orb_true_iff, !bool_decide_eq_true. reflexivity.
Qed.

(** [del] with a valid key sends the delete and calls back when it
    settles, whatever the outcome. *)
Lemma del_settled {R} key s3Key (k : Action R) w reply rest :
  formatKey sanitize config key = inr s3Key ->
  replies w = reply :: rest ->
  del' key (fun _ => k) w =
  k {| replies := rest; clock := clock w; reads := reads w;
       sent := sent w ++ [DeleteObjectCommand (bucket config) s3Key];
       called := called w; thrown := thrown w |}.
Proof.
  intros Hk Hr. unfold del. rewrite Hk.
  rewrite (send_settled _ _ _ _ _ Hr). destruct reply; reflexivity.
Qed.

Lemma del_pending {R} key s3Key (callback : DeleteArgs -> Action R) w :
  formatKey sanitize config key = inr s3Key ->
  replies w = [] ->
  del' key callback w =
  logSent (DeleteObjectCommand (bucket config) s3Key) w.
Proof.
  intros Hk Hr. unfold del. rewrite Hk. apply send_pending, Hr.
Qed.

Lemma isExpired_unreadable {R} metadata (k : bool -> Action R) w :
  expiryUnreadable metadata -> isExpired metadata k w = k false w.
Proof.
  unfold isExpired. intros [-> | [-> | (ttl & -> & Hp)]]; try reflexivity.
  rewrite Hp. destruct (truthy ttl); reflexivity.
Qed.

Lemma isExpired_readable {R} metadata ttl expirationTime
    (k : bool -> Action R) w :
  metadata !! "cache-ttl" = Some ttl ->
  parseInt10 ttl = Some expirationTime ->
  isExpired metadata k w =
  k (clock w (reads w) >? expirationTime)
    {| replies := replies w; clock := clock w; reads := S (reads w);
       sent := sent w; called := called w; thrown := thrown w |}.
Proof.
  unfold isExpired. intros -> Hp. rewrite Hp.
  destruct ttl; [discriminate Hp | reflexivity].
Qed.
End GetLemmas.

(** C5: when the read of [get] is rejected with the name [NoSuchKey] or
    with the status 404, the callback receives [(null, null)]; any other
    rejection is reported as an S3OperationError that carries the status
    code of the rejection, if it has one, and the rejection as its
    cause. *)
Theorem get_not_found_is_a_miss
    (T : Type) (JSON_parse : string -> NativeError + JSValue T)
    (sanitize : jsstring -> jsstring) (config : ProcessedS3StoreOptions)
    (key : jsstring) (s3Key : CacheKey) (error : ProviderError)
    (rest : list Reply) (w : World (GetArgs T)) :
  formatKey sanitize config key = inr s3Key ->
  replies w = Rejected error :: rest ->
  let w' := get JSON_parse sanitize config key invoke w in
  sent w' = sent w ++ [GetObjectCommand (bucket config) s3Key]
  ∧ (name error = Some "NoSuchKey" ∨ httpStatusCode error = Some 404 ->
     called w' = called w ++ [(None, Null)])
  ∧ (name error <> Some "NoSuchKey" -> httpStatusCode error <> Some 404 ->
     called w' =
     called w ++
       [(Some (S3OperationError "Failed to retrieve cache entry"
                 (httpStatusCode error) (Some (Rejection error))),
         Undefined)]).
Proof.
  intros Hk Hr w'. subst w'. unfold get. rewrite Hk.
  rewrite (send_settled _ _ _ _ _ Hr).
  destruct (isNotFound error) eqn:E.
  - split; [reflexivity |]. split; [reflexivity |].
    apply isNotFound_true in E. tauto.
  - split; [reflexivity |]. split; [| reflexivity].
    intros H. apply isNotFound_true in H. congruence.
Qed.

Lemma get_not_found_is_a_miss_witness :
  called
    (get Example.JSON_parse Example.sanitize Example.config (js "missing")
       invoke (Example.start [Rejected Example.noSuchKey] 1000))
  = [(None, Null)].
Proof.
  exact (proj1 (proj2 (get_not_found_is_a_miss Z Example.JSON_parse
    Example.sanitize Example.config (js "missing") (js "test:missing")
    Example.noSuchKey [] (Example.start [Rejected Example.noSuchKey] 1000)
    eq_refl eq_refl)) (or_introl eq_refl)).
Defined.

(** C6: when [get] reads an entry whose [cache-ttl] attribute parses to a
    time before the current one, it sends a delete for the key and, once
    the delete has settled, resolved or rejected, calls back with
    [(null, null)]; the stored value is not passed to the callback, also
    not while the delete is pending. *)
Theorem get_expired_entry_is_deleted
    (T : Type) (JSON_parse : string -> NativeError + JSValue T)
    (sanitize : jsstring -> jsstring) (config : ProcessedS3StoreOptions)
    (key : jsstring) (s3Key : CacheKey) (result : Output)
    (metadata : gmap string string) (ttl : string) (expirationTime : Z)
    (rest : list Reply) (w : World (GetArgs T)) :
  formatKey sanitize config key = inr s3Key ->
  replies w = Resolved result :: rest ->
  outMetadata result = Some metadata ->
  metadata !! "cache-ttl" = Some ttl ->
  parseInt10 ttl = Some expirationTime ->
  expirationTime < clock w (reads w) ->
  let w' := get JSON_parse sanitize config key invoke w in
  sent w' =
  sent w ++ [GetObjectCommand (bucket config) s3Key;
             DeleteObjectCommand (bucket config) s3Key]
  ∧ (forall deleteReply rest', rest = deleteReply :: rest' ->
       called w' = called w ++ [(None, Null)])
  ∧ (rest = [] -> called w' = called w).
Proof.
  intros Hk Hr Hm Ht Hp Hlt w'. subst w'. unfold get. rewrite Hk.
  rewrite (send_settled _ _ _ _ _ Hr), Hm.
  rewrite (isExpired_readable _ _ _ _ _ Ht Hp). world_simpl.
  replace (clock w (reads w) >? expirationTime) with true
    by (symmetry; apply Z.gtb_lt; exact Hlt).
  destruct rest as [| deleteReply rest'].
  - rewrite (del_pending sanitize config key s3Key) by (assumption || reflexivity).
    simpl. rewrite <- app_assoc. split; [reflexivity |].
    split; [discriminate | reflexivity].
  - rewrite (del_settled sanitize config key s3Key _ _ deleteReply rest')
      by (assumption || reflexivity).
    simpl. rewrite <- app_assoc. split; [reflexivity |].
    split; [reflexivity | discriminate].
Qed.

Lemma get_expired_entry_is_deleted_witness :
  called
    (get Example.JSON_parse Example.sanitize Example.config (js "expire:test")
       invoke
       (Example.start
          [Resolved (Example.object "42" {[ "cache-ttl" := "500" ]});
           Rejected Example.accessDenied] 1000))
  = [(None, Null)].
Proof.
  exact (proj1 (proj2 (get_expired_entry_is_deleted Z Example.JSON_parse
    Example.sanitize Example.config (js "expire:test") (js "test:expiretest")
    (Example.object "42" {[ "cache-ttl" := "500" ]}) {[ "cache-ttl" := "500" ]}
    "500" 500 [Rejected Example.accessDenied]
    (Example.start
       [Resolved (Example.object "42" {[ "cache-ttl" := "500" ]});
        Rejected Example.accessDenied] 1000)
    eq_refl eq_refl eq_refl eq_refl eq_refl eq_refl))
    (Rejected Example.accessDenied) [] eq_refl).
Defined.

(** C10: an entry whose [cache-ttl] attribute is absent, empty or does not
    parse as a number is never taken for expired: [isExpired] answers false
    without reading the clock, whatever the time, and [get] sends no
    delete and passes the parsed body to the callback. *)
Theorem get_unreadable_expiry_never_expires
    (T : Type) (JSON_parse : string -> NativeError + JSValue T)
    (sanitize : jsstring -> jsstring) (config : ProcessedS3StoreOptions)
    (metadata : gmap string string) :
  (metadata !! "cache-ttl" = None
   ∨ metadata !! "cache-ttl" = Some EmptyString
   ∨ exists ttl, metadata !! "cache-ttl" = Some ttl ∧ parseInt10 ttl = None) ->
  (forall (w : World (GetArgs T)) (k : bool -> Action (GetArgs T)),
     isExpired metadata k w = k false w)
  ∧ (forall key s3Key result rest text value (w : World (GetArgs T)),
       formatKey sanitize config key = inr s3Key ->
       replies w = Resolved result :: rest ->
       outMetadata result = Some metadata ->
       outBody result = Readable (StreamEnd (inr text)) ->
       JSON_parse text = inr value ->
       let w' := get JSON_parse sanitize config key invoke w in
       sent w' = sent w ++ [GetObjectCommand (bucket config) s3Key]
       ∧ called w' = called w ++ [(None, value)]
       ∧ reads w' = reads w).
Proof.
  intros H. split.
  - intros w k. apply isExpired_unreadable, H.
  - intros key s3Key result rest text value w Hk Hr Hm Hb Hj w'. subst w'.
    unfold get. rewrite Hk, (send_settled _ _ _ _ _ Hr), Hm.
    rewrite isExpired_unreadable by exact H.
    rewrite Hb. simpl. rewrite Hj. repeat split.
Qed.

Lemma get_unreadable_expiry_never_expires_witness :
  called
    (get Example.JSON_parse Example.sanitize Example.config (js "k") invoke
       (Example.start
          [Resolved (Example.object "42" {[ "cache-ttl" := "soon" ]})]
          1000000000000000))
  = [(None, Value 42)].
Proof.
  exact (proj1 (proj2 (proj2 (get_unreadable_expiry_never_expires Z
    Example.JSON_parse Example.sanitize Example.config
    {[ "cache-ttl" := "soon" ]}
    (or_intror (or_intror (ex_intro _ "soon" (conj eq_refl eq_refl)))))
    (js "k") (js "test:k")
    (Example.object "42" {[ "cache-ttl" := "soon" ]}) [] "42" (Value 42)
    (Example.start
       [Resolved (Example.object "42" {[ "cache-ttl" := "soon" ]})]
       1000000000000000)
    eq_refl eq_refl eq_refl eq_refl eq_refl))).
Defined.

(** *** Claim about [healthCheck] *)

(** C7: once the probe of [healthCheck] has settled the callback has been
    called once, with a null error: with the status [healthy], the bucket,
    the region and the SDK version when the probe resolved, and with the
    status [unhealthy] and the message of the rejection (or
    [Unknown error]) in the error field when it was rejected. *)
Theorem healthCheck_reports_status_not_error
    (config : ProcessedS3StoreOptions) (reply : Reply) (rest : list Reply)
    (w : World HealthArgs) :
  replies w = reply :: rest ->
  let w' := healthCheck config invoke w in
  sent w' = sent w ++ [HeadBucketCommand (bucket config)]
  ∧ exists health,
      called w' = called w ++ [(None, Some health)]
      ∧ hsBucket health = bucket config
      ∧ hsRegion health = region config
      ∧ sdkVersion health = "v3"
      ∧ match reply with
        | Resolved _ => status health = "healthy" ∧ hsError health = None
        | Rejected error =>
            status health = "unhealthy"
            ∧ hsError health = Some (default "Unknown error" (message error))
        end.
Proof.
  intros Hr w'. subst w'. unfold healthCheck.
  rewrite (send_settled _ _ _ _ _ Hr).
  destruct reply; (split; [reflexivity |]); eexists;
    (split; [reflexivity |]); repeat split.
Qed.

Lemma healthCheck_reports_status_not_error_witness :
  exists health,
    called
      (healthCheck Example.config invoke
         (Example.start [Rejected Example.accessDenied] 1000))
    = [(None, Some health)]
    ∧ status health = "unhealthy"
    ∧ hsError health = Some "Access Denied".
Proof.
  destruct (healthCheck_reports_status_not_error Example.config
              (Rejected Example.accessDenied) []
              (Example.start [Rejected Example.accessDenied] 1000) eq_refl)
    as [_ (health & H & _ & _ & _ & Hs & He)].
  exists health. split; [exact H |]. split; [exact Hs | exact He].
Defined.

(** *** Claim about [clear] *)

Lemma collected_app (pages more : list Output) :
  collected (pages ++ more) = collected pages ++ collected more.
Proof. unfold collected. apply flat_map_app. Qed.

Section ClearLemmas.
Variable config : ProcessedS3StoreOptions.
Context {R : Type}.

Lemma listBatch_pages pages : forall final tail objects token
    (callback : option JSError -> option (list jsstring) -> Action R) w,
  Forall (fun page => IsTruncated page = true) pages ->
  match final with
  | Resolved last => IsTruncated last = false
  | Rejected _ => True
  end ->
  replies w = map Resolved pages ++ final :: tail ->
  listBatch config (map Resolved pages ++ final :: tail) objects token
    callback w =
  match final with
  | Resolved last =>
      callback None (Some (objects ++ collected (pages ++ [last])))
  | Rejected error => callback (Some (listError error)) None
  end
    {| replies := tail; clock := clock w; reads := reads w;
       sent := sent w ++ listingCommands config token pages;
       called := called w; thrown := thrown w |}.
Proof.
  induction pages as [| page more IH];
    intros final tail objects token callback w Htr Hfin Hr.
  - simpl in *. rewrite (send_settled _ _ _ _ _ Hr).
    destruct final as [last | error]; [| reflexivity].
    rewrite Hfin. unfold collected. simpl. rewrite app_nil_r.
    destruct (Contents last); [reflexivity |]. rewrite app_nil_r. reflexivity.
  - inversion Htr as [| ? ? Hpage Hmore]; subst.
    cbn [map app listBatch]. cbn [map app] in Hr.
    rewrite (send_settled _ _ _ _ _ Hr), Hpage.
    rewrite IH by (assumption || reflexivity). world_simpl.
    cbn [listingCommands]. rewrite <- app_assoc. cbn [app].
    replace (match Contents page with
             | Some contents => objects ++ keysOf contents
             | None => objects
             end)
      with (objects ++ collected [page])
      by (unfold collected; simpl; destruct (Contents page);
          rewrite ?app_nil_r; reflexivity).
    destruct final as [last | error]; [| reflexivity].
    rewrite <- app_assoc, <- collected_app. reflexivity.
Qed.

Lemma sent_all_batches (batches : list (list jsstring)) : forall (w : World R),
  fold_left
    (fun w batch => logSent (DeleteObjectsCommand (bucket config) batch) w)
    batches w =
  {| replies := replies w; clock := clock w; reads := reads w;
     sent := sent w ++ map (DeleteObjectsCommand (bucket config)) batches;
     called := called w; thrown := thrown w |}.
Proof.
  induction batches as [| batch more IH]; intros w.
  - simpl. rewrite app_nil_r. destruct w; reflexivity.
  - cbn [fold_left map]. rewrite IH. unfold logSent. world_simpl.
    rewrite <- app_assoc. reflexivity.
Qed.
End ClearLemmas.




(** The loop bound of [chunkArray] is enough: the chunks of a positive
    size cover the array, none is empty and none is longer than the size. *)
Lemma chunkArray_from_covers {U} (array : list U) (chunkSize : nat) :
  (0 < chunkSize)%nat ->
  forall fuel i,
    (length array - i <= fuel)%nat ->
    concat (chunkArray_from fuel array chunkSize i) = drop i array
    ∧ Forall (fun chunk => (0 < length chunk <= chunkSize)%nat)
        (chunkArray_from fuel array chunkSize i).
Proof.
  intros Hpos. induction fuel as [| fuel IH]; intros i Hfuel.
  - cbn [chunkArray_from concat]. rewrite drop_ge by lia.
    split; [reflexivity | constructor].
  - cbn [chunkArray_from]. destruct (Nat.ltb_spec i (length array)).
    + destruct (IH (i + chunkSize)%nat ltac:(lia)) as [Hcat Hall].
      cbn [concat]. rewrite Hcat. split.
      * rewrite <- drop_drop. apply take_drop.
      * constructor; [| exact Hall].
        rewrite length_take, length_drop. lia.
    + cbn [concat]. rewrite drop_ge by lia. split; [reflexivity | constructor].
Qed.

Lemma chunkArray_covers {U} (array : list U) (chunkSize : nat) :
  (0 < chunkSize)%nat ->
  concat (chunkArray array chunkSize) = array
  ∧ Forall (fun chunk => (0 < length chunk <= chunkSize)%nat)
      (chunkArray array chunkSize).
Proof.
  intros Hpos. unfold chunkArray.
  destruct (chunkArray_from_covers array chunkSize Hpos (length array) 0
              ltac:(lia)) as [Hcat Hall].
  split; [exact Hcat | exact Hall].
Qed.




(** *** Claim about [scan] *)

Section ScanLemmas.
Variable T : Type.
Variable JSON_parse : string -> NativeError + JSValue T.
Variable sanitize : jsstring -> jsstring.
Variable config : ProcessedS3StoreOptions.

Local Abbreviation get' := (get JSON_parse sanitize config).

(** Once the store has answered the read and, for an expired entry, the
    delete, [get] has called back exactly once. *)
Lemma get_calls_back_once key (w : World (GetArgs T)) :
  (2 <= length (replies w))%nat ->
  exists args, called (get' key invoke w) = called w ++ [args].
Proof.
  intros Hlen. unfold get.
  destruct (formatKey sanitize config key) as [e | s3Key] eqn:Hk;
    [eexists; reflexivity |].
  destruct (replies w) as [| r1 [| r2 rest]] eqn:Hr;
    try (simpl in Hlen; lia).
  rewrite (send_settled _ _ _ _ _ Hr).
  destruct r1 as [result | error];
    [| destruct (isNotFound error); eexists; reflexivity].
  assert (Hbody : forall w' : World (GetArgs T), exists args,
    called
      (match outBody result with
       | Readable stream =>
           streamToString stream (fun error bodyText =>
             match error with
             | Some error => invoke (Some error, Undefined)
             | None =>
                 match JSON_parse (default EmptyString bodyText) with
                 | inr value => invoke (None, value)
                 | inl parseError =>
                     invoke
                       (Some (SerializationError
                                "Failed to parse cached value"
                                (Some parseError)), Undefined)
                 end
             end)
       | NotReadable =>
           invoke
             (Some (S3OperationError "Unexpected response body format"
                      None None), Undefined)
       end w') = called w' ++ [args]).
  { intros w'. destruct (outBody result) as [[[e | text] | e] |];
      simpl; try (eexists; reflexivity).
    destruct (JSON_parse text); eexists; reflexivity. }
  match goal with
  | |- context [{| replies := ?r; clock := ?c; reads := ?n; sent := ?s;
                   called := called w; thrown := ?t |}] =>
      set (w1 := {| replies := r; clock := c; reads := n; sent := s;
                    called := called w; thrown := t |})
  end.
  change (called w) with (called w1).
  destruct (outMetadata result) as [metadata |]; [| apply Hbody].
  unfold isExpired.
  destruct (metadata !! "cache-ttl") as [ttl |]; [| apply Hbody].
  destruct (truthy ttl); [| apply Hbody].
  destruct (parseInt10 ttl) as [expirationTime |]; [| apply Hbody].
  unfold DateNow.
  destruct (clock w1 (reads w1) >? expirationTime).
  - erewrite del_settled by (eassumption || reflexivity).
    eexists. reflexivity.
  - match goal with
    | |- context [{| replies := ?r; clock := ?c; reads := ?n; sent := ?s;
                     called := called w1; thrown := ?t |}] =>
        change (called w1)
          with (called {| replies := r; clock := c; reads := n; sent := s;
                          called := called w1; thrown := t |}) at 2
    end.
    apply Hbody.
Qed.

Lemma invokeAll_nil {R} (w : World R) : invokeAll [] w = w.
Proof. unfold invokeAll. rewrite app_nil_r. destruct w; reflexivity. Qed.

Lemma issuedKeys_cons obj (more : list (option jsstring)) :
  issuedKeys config (obj :: more) =
  match obj with
  | Some (c :: Key) =>
      match originalKeyOf config (c :: Key) with
      | Some originalKey => originalKey :: issuedKeys config more
      | None => issuedKeys config more
      end
  | _ => issuedKeys config more
  end.
Proof.
  destruct obj as [[| c Key] |]; reflexivity.
Qed.

Lemma objects_counted (objects : list (option jsstring)) :
  Forall (decodes config) objects ->
  length objects
  = (length (filter (fun obj => keyless obj = true) objects)
     + length (issuedKeys config objects))%nat.
Proof using config.
  clear JSON_parse sanitize.
  induction 1 as [| obj more Hobj _ IH]; [reflexivity |].
  rewrite issuedKeys_cons.
  destruct obj as [[| c Key] |]; cbn [keyless] in *.
  - rewrite filter_cons_True by reflexivity. cbn [length]. lia.
  - rewrite filter_cons_False by discriminate.
    cbn [decodes] in Hobj.
    destruct (originalKeyOf config (c :: Key)); [| congruence].
    cbn [length]. lia.
  - rewrite filter_cons_True by reflexivity. cbn [length]. lia.
Qed.

(** The loop over a listing whose keys all decode: the objects without
    key are counted, the lookups of the others are issued, and the
    callback is called in the loop only if the count reaches the number
    of objects there. *)
Lemma forEachObject_decoded (objects : nat) (result : Output)
    (remaining : list (option jsstring)) :
  forall (st : ScanState T) (issued : list jsstring)
    (finished : ScanState T -> list jsstring -> Action (ScanArgs T))
    (failed : NativeError -> ScanState T -> list jsstring
              -> Action (ScanArgs T))
    (w : World (ScanArgs T)),
    Forall (decodes config) remaining ->
    forEachObject config objects result invoke remaining st issued
      finished failed w =
    let counted :=
      length (filter (fun obj => keyless obj = true) remaining) in
    finished
      {| processed := counted + processed st; found := found st |}
      (issued ++ issuedKeys config remaining)
      (invokeAll
         (if (processed st <? objects)%nat
             && (objects <=? counted + processed st)%nat
          then [(None, Some {| cursor := cursorOf result;
                               entries := found st |})]
          else []) w).
Proof.
  induction remaining as [| obj more IH];
    intros st issued finished failed w Hdec.
  - cbn [forEachObject]. rewrite filter_nil. cbn [length Nat.add].
    change (issuedKeys config []) with (@nil jsstring). rewrite app_nil_r.
    replace ((processed st <? objects)%nat && (objects <=? processed st)%nat)
      with false
      by (symmetry; apply andb_false_iff;
          destruct (Nat.ltb_spec (processed st) objects);
          [right; apply Nat.leb_gt; lia | left; reflexivity]).
    rewrite invokeAll_nil. destruct st; reflexivity.
  - inversion Hdec as [| ? ? Hobj Hmore]; subst.
    assert (Hkeyless : keyless obj = true ->
      forEachObject config objects result invoke (obj :: more) st issued
        finished failed w =
      forEachObject config objects result invoke more
        {| processed := S (processed st); found := found st |} issued
        finished failed
        (reportWhenDone objects result invoke
           {| processed := S (processed st); found := found st |} w)).
    { destruct obj as [[| c Key] |]; [reflexivity | discriminate | reflexivity]. }
    destruct (keyless obj) eqn:Hk.
    + rewrite Hkeyless by reflexivity. rewrite IH by exact Hmore.
      rewrite filter_cons_True by exact Hk.
      assert (Hissued : issuedKeys config (obj :: more) = issuedKeys config more)
        by (rewrite issuedKeys_cons;
            destruct obj as [[| c Key] |];
            [reflexivity | discriminate | reflexivity]).
      rewrite Hissued. cbn [length processed found]. cbv zeta.
      replace (length (filter (fun obj => keyless obj = true) more)
               + S (processed st))%nat
        with (S (length (filter (fun obj => keyless obj = true) more))
              + processed st)%nat by lia.
      f_equal. unfold reportWhenDone, invokeAll, invoke, skip.
      cbn [processed found]. world_simpl.
      set (counted := length (filter (fun obj => keyless obj = true) more)).
      destruct (Nat.eqb_spec (S (processed st)) objects) as [Heq | Hne];
        destruct (Nat.ltb_spec (S (processed st)) objects);
        destruct (Nat.ltb_spec (processed st) objects);
        destruct (Nat.leb_spec objects (counted + S (processed st)));
        destruct (Nat.leb_spec objects (S counted + processed st));
        try lia; cbn [andb]; world_simpl; rewrite ?app_nil_r;
        try reflexivity.
    + destruct obj as [[| c Key] |]; try discriminate Hk.
      cbn [forEachObject]. simpl in Hobj.
      rewrite filter_cons_False by (rewrite Hk; discriminate).
      rewrite issuedKeys_cons.
      destruct (originalKeyOf config (c :: Key)) as [originalKey |];
        [| congruence].
      rewrite IH by exact Hmore. cbv zeta.
      rewrite <- app_assoc. reflexivity.
Qed.

Lemma keptEntries_cons issued lookups i later originalKey args :
  issued !! i = Some originalKey ->
  delivered JSON_parse sanitize config lookups i originalKey = [args] ->
  keptEntries JSON_parse sanitize config issued lookups (i :: later) =
  match args with
  | (None, Value data) => [(originalKey, data)]
  | _ => []
  end ++ keptEntries JSON_parse sanitize config issued lookups later.
Proof.
  intros Hi Hd. unfold keptEntries. cbn [omap list_omap].
  unfold keptEntry at 1. rewrite Hi. cbn [mbind option_bind].
  rewrite Hd. cbn [head mbind option_bind].
  destruct args as [[e |] [| | data]]; reflexivity.
Qed.

(** The callbacks of the lookups: the one that arrives last reports the
    entries kept, in the order of arrival. *)
Lemma awaitLookups_delivered (objects : nat) (result : Output)
    (issued : list jsstring) (lookups : nat -> World (GetArgs T))
    (arrival : list nat) :
  forall (st : ScanState T) (w : World (ScanArgs T)),
    (forall i, In i arrival ->
       exists originalKey args,
         issued !! i = Some originalKey
         ∧ delivered JSON_parse sanitize config lookups i originalKey = [args]) ->
    (processed st + length arrival <= objects)%nat ->
    awaitLookups JSON_parse sanitize config objects result invoke issued
      lookups arrival st w =
    invokeAll
      (match arrival with
       | [] => []
       | _ =>
           if (processed st + length arrival =? objects)%nat
           then [(None,
                  Some {| cursor := cursorOf result;
                          entries :=
                            found st ++ keptEntries JSON_parse sanitize config issued lookups arrival |})]
           else []
       end) w.
Proof.
  induction arrival as [| i later IH]; intros st w Hall Hle.
  - cbn [awaitLookups]. rewrite invokeAll_nil. reflexivity.
  - destruct (Hall i (or_introl eq_refl)) as (originalKey & args & Hi & Hd).
    cbn [awaitLookups]. rewrite Hi.
    unfold delivered in Hd. rewrite Hd. cbn [fold_left].
    rewrite (keptEntries_cons _ _ _ _ _ _ Hi Hd).
    unfold lookedUp.
    set (found' := match args with
                   | (None, Value data) => found st ++ [(originalKey, data)]
                   | _ => found st
                   end).
    assert (Hfound : found' =
              found st ++ match args with
                          | (None, Value data) => [(originalKey, data)]
                          | _ => []
                          end)
      by (subst found'; destruct args as [[e |] [| | data]];
          rewrite ?app_nil_r; reflexivity).
    rewrite IH;
      [| intros j Hj; apply Hall; right; exact Hj
       | cbn [processed length] in *; lia].
    cbn [processed found length] in *.
    unfold reportWhenDone, invokeAll, invoke, skip.
    cbn [processed found]. world_simpl.
    rewrite Hfound, <- app_assoc.
    destruct later as [| j later'].
    + cbn [length]. rewrite app_nil_r.
      replace (processed st + 1)%nat with (S (processed st)) by lia.
      change (keptEntries JSON_parse sanitize config issued lookups []) with (@nil (jsstring * T)).
      destruct (S (processed st) =? objects)%nat; world_simpl;
        rewrite ?app_nil_r; reflexivity.
    + cbn [length] in *.
      replace (S (processed st) =? objects)%nat with false
        by (symmetry; apply Nat.eqb_neq; lia).
      replace (processed st + S (S (length later')))%nat
        with (S (processed st) + S (length later'))%nat by lia.
      reflexivity.
Qed.
End ScanLemmas.

Section ScanListed.
Variable T : Type.
Variable JSON_parse : string -> NativeError + JSValue T.
Variable sanitize : jsstring -> jsstring.
Variable config : ProcessedS3StoreOptions.

(** The [then] handler of a listing whose keys all decode, when every
    lookup is answered by the store. *)
Lemma scanListed_decoded (result : Output)
    (lookups : nat -> World (GetArgs T)) (arrival : list nat)
    (w : World (ScanArgs T)) :
  let objects := default [] (Contents result) in
  let issued := issuedKeys config objects in
  Forall (decodes config) objects ->
  arrival ≡ₚ seq 0 (length issued) ->
  (forall i, (i < length issued)%nat ->
     called (lookups i) = []
     ∧ (2 <= length (replies (lookups i)))%nat) ->
  scanListed JSON_parse sanitize config result invoke lookups arrival w =
  invoke
    (None,
     Some {| cursor :=
               match objects with
               | [] => CursorNumber 0
               | _ => cursorOf result
               end;
             entries :=
               keptEntries JSON_parse sanitize config issued lookups
                 arrival |}) w.
Proof.
  intros objects issued Hdec Hperm Hlookups.
  assert (Hlen : length arrival = length issued)
    by (rewrite Hperm; apply length_seq).
  assert (Hall : forall i, In i arrival ->
    exists originalKey args,
      issued !! i = Some originalKey
      ∧ delivered JSON_parse sanitize config lookups i originalKey = [args]).
  { intros i Hi.
    assert (Hlt : (i < length issued)%nat).
    { apply list_elem_of_In in Hi. rewrite Hperm in Hi.
      apply elem_of_seq in Hi. lia. }
    destruct (lookup_lt_is_Some_2 issued i Hlt) as [originalKey Hkey].
    destruct (Hlookups i Hlt) as [Hnone Htwo].
    destruct (get_calls_back_once T JSON_parse sanitize config originalKey
                (lookups i) Htwo) as [args Hargs].
    exists originalKey, args. split; [exact Hkey |].
    unfold delivered. rewrite Hargs, Hnone. reflexivity. }
  pose proof (objects_counted config objects Hdec) as Hcount.
  fold issued in Hcount.
  unfold scanListed. fold objects.
  destruct objects as [| obj more] eqn:Hobjects.
  - cbn [length] in Hlen. destruct arrival; [reflexivity | discriminate Hlen].
  - rewrite forEachObject_decoded by exact Hdec. cbv zeta.
    fold issued. cbn [processed found app].
    set (counted :=
           length (filter (fun obj => keyless obj = true) (obj :: more)))
      in *.
    rewrite (awaitLookups_delivered T JSON_parse sanitize config)
      by (assumption || (cbn [processed]; lia)).
    cbn [processed found app]. rewrite Nat.add_0_r.
    unfold invokeAll, invoke. world_simpl. cbn [length] in Hcount.
    destruct arrival as [| i later].
    + cbn [length] in Hlen.
      replace ((0 <? length (obj :: more))%nat
               && (length (obj :: more) <=? counted)%nat)
        with true
        by (symmetry; apply andb_true_iff; split;
            [apply Nat.ltb_lt | apply Nat.leb_le]; cbn [length]; lia).
      rewrite app_nil_r. reflexivity.
    + cbn [length] in Hlen.
      replace ((0 <? length (obj :: more))%nat
               && (length (obj :: more) <=? counted)%nat)
        with false
        by (symmetry; apply andb_false_iff; right; apply Nat.leb_gt;
            cbn [length]; lia).
      replace (counted + length (i :: later) =? length (obj :: more))%nat
        with true
        by (symmetry; apply Nat.eqb_eq; cbn [length]; lia).
      rewrite app_nil_r. reflexivity.
Qed.
End ScanListed.




(** * Further properties *)

(** ** The storage keys *)

Section RestoreDecodes.
Local Open Scope N_scope.

Lemma stripPrefix_Some p : forall s rest,
  stripPrefix p s = Some rest -> s = p ++ rest.
Proof.
  induction p as [| a p IH]; intros s rest H.
  - injection H as <-. reflexivity.
  - destruct s as [| c s]; [discriminate H |]. cbn [stripPrefix] in H.
    destruct (N.eqb_spec a c) as [<- | _]; [| discriminate H].
    cbn [app]. f_equal. apply IH, H.
Qed.

(** A pattern of unescaped characters starts the encoding exactly when it
    starts the string. *)
Lemma startsWith_Encode keep p :
  unescapedSet keep ->
  Forall (fun a => keep a = true) p ->
  forall s e, Encode keep s = Some e -> startsWith p e = startsWith p s.
Proof.
  intros Hkeep Hp. unfold startsWith.
  induction Hp as [| a p Ha _ IH]; intros s e He; [reflexivity |].
  destruct s as [| c t].
  - injection He as <-. reflexivity.
  - destruct (Encode_head keep c t e He) as [rest ->].
    cbn [stripPrefix]. cbn [Encode] in He.
    destruct (keep c) eqn:Hc.
    + destruct (Encode keep t) as [e' |] eqn:Ht; [| discriminate He].
      injection He as <-.
      destruct (a =? c); [apply (IH t e' Ht) | reflexivity].
    + destruct (N.eqb_spec a 37) as [-> | _];
        [destruct (Hkeep 37 Ha); congruence |].
      destruct (N.eqb_spec a c) as [-> | _]; [congruence | reflexivity].
Qed.

Lemma replaceAll_unmatched pat rep c s :
  startsWith pat (c :: s) = false ->
  replaceAll pat rep (c :: s) = c :: replaceAll pat rep s.
Proof. intros H. unfold replaceAll. cbn [replaceAll_from]. rewrite H. reflexivity. Qed.

(** Restoring the separators in the encoding of any well-formed string
    leaves a text that decodes: to the string with its placeholders
    replaced by separators. *)
Lemma restore_decodes n : forall s,
  (length s <= n)%nat -> isWellFormed s = true ->
  exists e ts,
    encodeURIComponent s = Some e
    ∧ tokens (replaceAll SLASH_PLACEHOLDER SLASH e) = Some ts
    ∧ decodeTokens ts = Some (replaceAll SLASH_PLACEHOLDER SLASH s).
Proof.
  unfold encodeURIComponent.
  induction n as [| n IH]; intros s Hlen Hwf.
  { destruct s; [| simpl in Hlen; lia]. exists [], []. repeat split. }
  destruct (stripPrefix SLASH_PLACEHOLDER s) as [rest |] eqn:Hstrip.
  - pose proof (stripPrefix_Some _ _ _ Hstrip) as ->.
    assert (Hrest : isWellFormed rest = true) by exact Hwf.
    assert (Hshort : (length rest <= n)%nat)
      by (rewrite length_app in Hlen; simpl in Hlen; lia).
    destruct (IH rest Hshort Hrest) as (e & ts & He & Ht & Hd).
    exists (SLASH_PLACEHOLDER ++ e), (Lit 47 :: ts).
    split; [rewrite Encode_unescaped by exact placeholder_unescaped;
            rewrite He; reflexivity |].
    rewrite !SLASH_PLACEHOLDER_head, !replaceAll_match.
    rewrite <- !SLASH_PLACEHOLDER_head.
    split.
    + change (SLASH ++ replaceAll SLASH_PLACEHOLDER SLASH e)
        with (47 :: replaceAll SLASH_PLACEHOLDER SLASH e).
      apply tokens_literal; [lia | exact Ht].
    + cbn [decodeTokens]. rewrite Hd. reflexivity.
  - assert (Hno : startsWith SLASH_PLACEHOLDER s = false)
      by (unfold startsWith; rewrite Hstrip; reflexivity).
    destruct s as [| c t]; [exists [], []; repeat split |].
    cbn [isWellFormed] in Hwf. cbn [length] in Hlen.
    destruct (isLeadingSurrogate c) eqn:Hlead.
    + destruct t as [| d t']; [discriminate Hwf |].
      apply andb_true_iff in Hwf as [Htrail Hwf]. cbn [length] in Hlen.
      destruct (IH t' ltac:(lia) Hwf) as (e & ts & He & Ht & Hd).
      assert (Hun : uriUnescaped c = false).
      { destruct (uriUnescaped c) eqn:Hun; [| reflexivity].
        destruct (unescaped_not_surrogate _ c uriUnescaped_ascii Hun).
        congruence. }
      assert (Hnt : isTrailingSurrogate c = false).
      { revert Hlead. unfold isLeadingSurrogate, isTrailingSurrogate.
        code_unit_cases; cbn [andb]; congruence. }
      destruct (surrogate_pair_scalar c d Hlead Htrail) as [Hsv H16].
      exists (escape (utf8 (UTF16SurrogatePairToCodePoint c d)) ++ e),
        (map Octet (utf8 (UTF16SurrogatePairToCodePoint c d)) ++ ts).
      split; [cbn [Encode]; rewrite Hun, Hnt, Hlead, Htrail, He; reflexivity |].
      rewrite replaceAll_escape by (apply utf8_octets, Hsv).
      split; [apply tokens_escape; [apply utf8_octets, Hsv | exact Ht] |].
      assert (Hc95 : 95 <> c ∧ 95 <> d).
      { revert Hlead Htrail. unfold isLeadingSurrogate, isTrailingSurrogate.
        code_unit_cases; cbn [andb]; try discriminate; intros; lia. }
      rewrite SLASH_PLACEHOLDER_head.
      rewrite !replaceAll_other by tauto.
      rewrite <- SLASH_PLACEHOLDER_head.
      rewrite (decodeTokens_utf8 _ ts _ Hsv Hd), H16. reflexivity.
    + apply andb_true_iff in Hwf as [Hc Hwf].
      apply andb_true_iff in Hc as [Htrail Hc].
      apply negb_true_iff in Htrail. apply N.ltb_lt in Hc.
      destruct (IH t ltac:(lia) Hwf) as (e & ts & He & Ht & Hd).
      rewrite (replaceAll_unmatched _ _ _ _ Hno).
      destruct (uriUnescaped c) eqn:Hun.
      * exists (c :: e), (Lit c :: ts).
        assert (Henc : Encode uriUnescaped (c :: t) = Some (c :: e))
          by (cbn [Encode]; rewrite Hun, He; reflexivity).
        split; [exact Henc |].
        rewrite replaceAll_unmatched
          by (rewrite (startsWith_Encode uriUnescaped SLASH_PLACEHOLDER
                         uriUnescaped_ascii placeholder_unescaped _ _ Henc);
              exact Hno).
        split; [apply tokens_literal;
                [apply (uriUnescaped_ascii c Hun) | exact Ht] |].
        cbn [decodeTokens]. rewrite Hd. reflexivity.
      * exists (escape (utf8 c) ++ e), (map Octet (utf8 c) ++ ts).
        split; [cbn [Encode]; rewrite Hun, Htrail, Hlead, He; reflexivity |].
        rewrite replaceAll_escape by (apply utf8_octets; lia).
        split; [apply tokens_escape; [apply utf8_octets; lia | exact Ht] |].
        rewrite (decodeTokens_utf8 c ts (replaceAll SLASH_PLACEHOLDER SLASH t));
          [| | exact Hd].
        -- unfold UTF16EncodeCodePoint.
           destruct (N.leb_spec c 65535); [reflexivity | lia].
        -- unfold isLeadingSurrogate, isTrailingSurrogate in *.
           split; [lia |]. intros [H1 H2]. revert Hlead Htrail.
           code_unit_cases; discriminate.
Qed.
End RestoreDecodes.

(** The storage key of a key whose sanitized form is well formed, and
    what [scan] decodes it to. *)
Lemma formatKey_decodes
    (sanitize : jsstring -> jsstring) (config : ProcessedS3StoreOptions)
    (key : jsstring) :
  key <> [] ->
  isWellFormed (sanitize (replaceAll SLASH SLASH_PLACEHOLDER key)) = true ->
  exists s3Key,
    formatKey sanitize config key = inr s3Key
    ∧ originalKeyOf config s3Key
      = Some (replaceAll SLASH_PLACEHOLDER SLASH
                (sanitize (replaceAll SLASH SLASH_PLACEHOLDER key))).
Proof.
  intros Hne Hwf.
  destruct (restore_decodes _ _ (Nat.le_refl _) Hwf) as (e & ts & He & Ht & Hd).
  exists (prefix config ++ replaceAll SLASH_PLACEHOLDER SLASH e). split.
  - unfold formatKey.
    assert (Hvalid : isValidCacheKey key = true)
      by (destruct key; [contradiction | reflexivity]).
    rewrite Hvalid, He. reflexivity.
  - unfold originalKeyOf. rewrite replaceFirst_prefix.
    unfold decodeURIComponent. rewrite Ht. exact Hd.
Qed.

(** X1: a storage key that [formatKey] produced always decodes in [scan].
    When the sanitized key is a well-formed string, removing the prefix
    from the storage key and percent-decoding the rest succeeds and gives
    the sanitized key with every placeholder replaced by a separator: a
    key written through [formatKey] never makes [scan] fail with a
    URIError. *)
Theorem formatKey_keys_decode
    (sanitize : jsstring -> jsstring) (config : ProcessedS3StoreOptions)
    (key : jsstring) (s3Key : CacheKey) :
  isWellFormed (sanitize (replaceAll SLASH SLASH_PLACEHOLDER key)) = true ->
  formatKey sanitize config key = inr s3Key ->
  originalKeyOf config s3Key
  = Some (replaceAll SLASH_PLACEHOLDER SLASH
            (sanitize (replaceAll SLASH SLASH_PLACEHOLDER key)))
  ∧ decodes config (Some s3Key).
Proof.
  intros Hwf Hkey.
  destruct key as [| k key'];
    [unfold formatKey in Hkey; discriminate Hkey |].
  destruct (formatKey_decodes sanitize config (k :: key')
              ltac:(discriminate) Hwf) as (s3Key' & Hf & Ho).
  rewrite Hf in Hkey. injection Hkey as ->.
  split; [exact Ho |].
  destruct s3Key as [| c Key]; [exact I |].
  cbn [decodes]. rewrite Ho. discriminate.
Qed.

Lemma formatKey_keys_decode_witness :
  originalKeyOf Example.config (js "test:a__b/cd") = Some (js "a__b/cd").
Proof.
  exact (proj1 (formatKey_keys_decode Example.sanitize Example.config
                  (js "a__b/c:d") (js "test:a__b/cd") eq_refl eq_refl)).
Defined.

Section StorageKeyChars.
Local Open Scope N_scope.

Lemma hexDigit_unescaped d : d < 16 -> uriUnescaped (hexDigit d) = true.
Proof.
  intros Hd. unfold hexDigit, uriUnescaped, isAlpha, isDecimalDigit, isMark.
  cbn [existsb].
  code_unit_cases; cbn [andb orb]; try reflexivity; lia.
Qed.

Lemma escape_chars octets :
  Forall (fun b => b < 256) octets ->
  Forall (fun c => isStorageKeyChar c = true) (escape octets).
Proof.
  induction 1 as [| b more Hb _ IH]; [constructor |].
  unfold escape. cbn [flat_map escapeOctet app]. fold (escape more).
  repeat constructor; try exact IH; unfold isStorageKeyChar.
  - rewrite hexDigit_unescaped by lia. reflexivity.
  - rewrite hexDigit_unescaped by lia. reflexivity.
Qed.

Lemma Encode_chars s : forall e,
  isWellFormed s = true ->
  encodeURIComponent s = Some e ->
  Forall (fun c => isStorageKeyChar c = true) e.
Proof.
  intros e Hwf. revert e. unfold encodeURIComponent. revert s Hwf.
  apply (wellFormed_ind (fun s => forall e,
    Encode uriUnescaped s = Some e ->
    Forall (fun c => isStorageKeyChar c = true) e)).
  - intros e [= <-]. constructor.
  - intros c t Hc Hlead Htrail _ IH e. cbn [Encode].
    rewrite Hlead, Htrail.
    destruct (Encode uriUnescaped t) as [e' |];
      [| destruct (uriUnescaped c); discriminate].
    specialize (IH e' eq_refl).
    destruct (uriUnescaped c) eqn:Hun; intros [= <-].
    + constructor; [| exact IH]. unfold isStorageKeyChar. rewrite Hun.
      reflexivity.
    + apply Forall_app. split; [| exact IH].
      apply escape_chars, utf8_octets. lia.
  - intros lead trail t Hlead Htrail _ IH e. cbn [Encode].
    assert (Hun : uriUnescaped lead = false).
    { destruct (uriUnescaped lead) eqn:Hun; [| reflexivity].
      destruct (unescaped_not_surrogate _ lead uriUnescaped_ascii Hun).
      congruence. }
    assert (Hnt : isTrailingSurrogate lead = false).
    { revert Hlead. unfold isLeadingSurrogate, isTrailingSurrogate.
      code_unit_cases; cbn [andb]; congruence. }
    rewrite Hun, Hnt, Hlead, Htrail.
    destruct (Encode uriUnescaped t) as [e' |]; [| discriminate].
    specialize (IH e' eq_refl). intros [= <-].
    destruct (surrogate_pair_scalar lead trail Hlead Htrail) as [[Hmax _] _].
    apply Forall_app. split; [| exact IH].
    apply escape_chars, utf8_octets, Hmax.
Qed.

Lemma replaceAll_from_chars (P : N -> Prop) pat rep s :
  Forall P rep -> Forall P s ->
  forall skip, Forall P (replaceAll_from pat rep skip s).
Proof.
  intros Hrep. induction 1 as [| c t Hc Ht IH]; intros skip; [constructor |].
  cbn [replaceAll_from]. destruct skip as [| k]; [| apply IH].
  destruct (startsWith pat (c :: t)).
  - apply Forall_app. split; [exact Hrep | apply IH].
  - constructor; [exact Hc | apply IH].
Qed.
End StorageKeyChars.

(** X2: after the prefix, a storage key holds only unreserved characters,
    the percent signs of escapes and separators; it is empty after the
    prefix only when the sanitizer left nothing of the key. *)
Theorem formatKey_storage_key_chars
    (sanitize : jsstring -> jsstring) (config : ProcessedS3StoreOptions)
    (key : jsstring) (s3Key : CacheKey) :
  isWellFormed (sanitize (replaceAll SLASH SLASH_PLACEHOLDER key)) = true ->
  formatKey sanitize config key = inr s3Key ->
  exists withSlashes,
    s3Key = prefix config ++ withSlashes
    ∧ Forall (fun c => isStorageKeyChar c = true) withSlashes
    ∧ (withSlashes = [] ->
       sanitize (replaceAll SLASH SLASH_PLACEHOLDER key) = []).
Proof.
  intros Hwf. unfold formatKey.
  destruct (isValidCacheKey key); [| discriminate].
  destruct (encodeURIComponent (sanitize _)) as [e |] eqn:He; [| discriminate].
  change (encodeURIComponent SLASH_PLACEHOLDER) with (Some SLASH_PLACEHOLDER).
  intros [= <-].
  exists (replaceAll SLASH_PLACEHOLDER SLASH e). split; [reflexivity |].
  split.
  - apply replaceAll_from_chars; [repeat constructor |].
    apply (Encode_chars _ e Hwf He).
  - intros Hnil.
    destruct (sanitize (replaceAll SLASH SLASH_PLACEHOLDER key))
      as [| c t]; [reflexivity |].
    exfalso.
    destruct (Encode_head _ _ _ _ He) as [rest ->].
    unfold replaceAll in Hnil. cbn [replaceAll_from] in Hnil.
    destruct (startsWith SLASH_PLACEHOLDER _); discriminate Hnil.
Qed.

Lemma formatKey_storage_key_chars_witness :
  exists withSlashes,
    js "test:a/b%20c" = js "test:" ++ withSlashes
    ∧ Forall (fun c => isStorageKeyChar c = true) withSlashes.
Proof.
  destruct (formatKey_storage_key_chars Example.sanitize Example.config
              (js "a/b c") (js "test:a/b%20c") eq_refl eq_refl)
    as (withSlashes & Hkey & Hchars & _).
  exists withSlashes. split; [exact Hkey | exact Hchars].
Defined.

Section PrefixListing.
Local Open Scope N_scope.

Lemma isWellFormed_app p : forall s,
  isWellFormed p = true -> isWellFormed s = true ->
  isWellFormed (p ++ s) = true.
Proof.
  intros s Hp Hs. revert p Hp. apply wellFormed_ind.
  - exact Hs.
  - intros c t Hc Hlead Htrail _ IH. cbn [app isWellFormed].
    rewrite Hlead, Htrail, IH. cbn [negb andb].
    apply andb_true_iff. split; [apply N.ltb_lt, Hc | reflexivity].
  - intros lead trail t Hlead Htrail _ IH. cbn [app isWellFormed].
    rewrite Hlead, Htrail, IH. reflexivity.
Qed.

Lemma noDoubleUnderscore_app_l p : forall s,
  noDoubleUnderscore (p ++ s) = true -> noDoubleUnderscore p = true.
Proof.
  induction p as [| c p IH]; intros s H; [reflexivity |].
  cbn [app noDoubleUnderscore] in *.
  apply andb_true_iff in H as [Hc Hrest].
  rewrite (IH s Hrest), andb_true_r.
  destruct p as [| d p']; [rewrite andb_false_r; reflexivity | exact Hc].
Qed.

(** The encoding of a string that starts with a well-formed string starts
    with the encoding of that string. *)
Lemma Encode_app keep p : forall s,
  unescapedSet keep ->
  isWellFormed p = true ->
  exists e,
    Encode keep p = Some e
    ∧ Encode keep (p ++ s) = app e <$> Encode keep s.
Proof.
  intros s Hkeep Hp. revert p Hp. apply wellFormed_ind.
  - exists []. split; [reflexivity |]. cbn [app].
    destruct (Encode keep s); reflexivity.
  - intros c t Hc Hlead Htrail _ (e & He & Happ).
    cbn [app Encode]. rewrite He, Happ, Hlead, Htrail.
    destruct (keep c).
    + exists (c :: e). split; [reflexivity |].
      destruct (Encode keep s); reflexivity.
    + exists (escape (utf8 c) ++ e). split; [reflexivity |].
      destruct (Encode keep s); cbn [fmap option_fmap option_map];
        rewrite ?app_assoc; reflexivity.
  - intros lead trail t Hlead Htrail _ (e & He & Happ).
    cbn [app Encode]. rewrite He, Happ, Hlead, Htrail.
    assert (Hk : keep lead = false).
    { destruct (keep lead) eqn:Hk; [| reflexivity].
      destruct (unescaped_not_surrogate keep lead Hkeep Hk). congruence. }
    assert (Hnt : isTrailingSurrogate lead = false).
    { revert Hlead. unfold isLeadingSurrogate, isTrailingSurrogate.
      code_unit_cases; cbn [andb]; congruence. }
    rewrite Hk, Hnt.
    exists (escape (utf8 (UTF16SurrogatePairToCodePoint lead trail)) ++ e).
    split; [reflexivity |].
    destruct (Encode keep s); cbn [fmap option_fmap option_map];
      rewrite ?app_assoc; reflexivity.
Qed.
End PrefixListing.

(** X3: [scan] lists under the storage form of its pattern.  For a
    non-empty well-formed pattern and a well-formed suffix that together
    have no two consecutive underscores and that the sanitizer leaves
    unchanged, the storage key of the pattern followed by the suffix
    starts with the prefix that [scan] lists for the pattern. *)
Theorem scan_prefix_covers_extending_keys
    (sanitize : jsstring -> jsstring) (config : ProcessedS3StoreOptions)
    (pattern suffix : jsstring) :
  pattern <> [] ->
  isWellFormed pattern = true ->
  isWellFormed suffix = true ->
  noDoubleUnderscore (pattern ++ suffix) = true ->
  sanitize (replaceAll SLASH SLASH_PLACEHOLDER pattern)
  = replaceAll SLASH SLASH_PLACEHOLDER pattern ->
  sanitize (replaceAll SLASH SLASH_PLACEHOLDER (pattern ++ suffix))
  = replaceAll SLASH SLASH_PLACEHOLDER (pattern ++ suffix) ->
  exists listPrefix tail,
    scanPrefix sanitize config pattern = Some listPrefix
    ∧ formatKey sanitize config (pattern ++ suffix)
      = inr (listPrefix ++ tail).
Proof.
  intros Hne Hwp Hws Hdu Hsp Hsk.
  pose proof (isWellFormed_app pattern suffix Hwp Hws) as Hwk.
  destruct (restore_slashes pattern Hwp (noDoubleUnderscore_app_l _ _ Hdu))
    as (e1 & He1 & Hk1).
  destruct (restore_slashes (pattern ++ suffix) Hwk Hdu) as (e & He & Hk).
  destruct (Encode_app uriUnescapedOrSlash pattern suffix
              uriUnescapedOrSlash_ascii Hwp) as (x1 & Hx1 & Happ).
  rewrite Hk1 in Hx1. injection Hx1 as <-.
  rewrite Hk in Happ.
  destruct (Encode uriUnescapedOrSlash suffix) as [x2 |];
    [| discriminate Happ].
  injection Happ as Happ.
  exists (prefix config ++ replaceAll SLASH_PLACEHOLDER SLASH e1), x2.
  split.
  - unfold scanPrefix. destruct pattern as [| c pattern']; [contradiction |].
    rewrite Hsp. change SLASH with [47%N]. rewrite replaceAll_single.
    fold (withPlaceholders (c :: pattern')). rewrite He1. reflexivity.
  - unfold formatKey.
    assert (Hvalid : isValidCacheKey (pattern ++ suffix) = true)
      by (destruct pattern; [contradiction | reflexivity]).
    rewrite Hvalid, Hsk. change SLASH with [47%N]. rewrite replaceAll_single.
    fold (withPlaceholders (pattern ++ suffix)). rewrite He.
    change (encodeURIComponent SLASH_PLACEHOLDER)
      with (Some SLASH_PLACEHOLDER).
    cbv beta iota. change [47%N] with SLASH. rewrite Happ, app_assoc.
    reflexivity.
Qed.

Lemma scan_prefix_covers_extending_keys_witness :
  exists tail,
    scanPrefix Example.sanitize Example.config (js "user/") = Some (js "test:user/")
    ∧ formatKey Example.sanitize Example.config (js "user/42 a")
      = inr (js "test:user/" ++ tail).
Proof.
  destruct (scan_prefix_covers_extending_keys Example.sanitize Example.config
              (js "user/") (js "42 a") ltac:(discriminate) eq_refl eq_refl
              eq_refl eq_refl eq_refl)
    as (listPrefix & tail & Hp & Hk).
  exists tail. injection Hp as <-. split; [reflexivity | exact Hk].
Defined.

(** The storage key of a key that the sanitizer leaves alone is the
    prefix and the encoding of the key that keeps the separators. *)
Lemma formatKey_encoding
    (sanitize : jsstring -> jsstring) (config : ProcessedS3StoreOptions)
    (key : jsstring) :
  key <> [] ->
  isWellFormed key = true ->
  noDoubleUnderscore key = true ->
  sanitize (replaceAll SLASH SLASH_PLACEHOLDER key)
  = replaceAll SLASH SLASH_PLACEHOLDER key ->
  exists withSlashes,
    formatKey sanitize config key = inr (prefix config ++ withSlashes)
    ∧ decodeURIComponent withSlashes = Some key.
Proof.
  intros Hne Hwf Hdu Hsan.
  destruct (restore_slashes key Hwf Hdu) as (e & He & Hk).
  exists (replaceAll SLASH_PLACEHOLDER SLASH e). split.
  - unfold formatKey.
    assert (Hvalid : isValidCacheKey key = true)
      by (destruct key; [contradiction | reflexivity]).
    rewrite Hvalid, Hsan.
    change SLASH with [47%N]. rewrite replaceAll_single.
    fold (withPlaceholders key). rewrite He. reflexivity.
  - exact (decodeURIComponent_Encode uriUnescapedOrSlash key _
             uriUnescapedOrSlash_ascii Hwf Hk).
Qed.

(** X4: keys that the codec keeps apart.  Two well-formed keys without
    two consecutive underscores, both left unchanged by the sanitizer
    once their separators are replaced, have the same storage key only if
    they are the same key. *)
Theorem formatKey_injective
    (sanitize : jsstring -> jsstring) (config : ProcessedS3StoreOptions)
    (key key' : jsstring) (s3Key : CacheKey) :
  isWellFormed key = true -> isWellFormed key' = true ->
  noDoubleUnderscore key = true -> noDoubleUnderscore key' = true ->
  sanitize (replaceAll SLASH SLASH_PLACEHOLDER key)
  = replaceAll SLASH SLASH_PLACEHOLDER key ->
  sanitize (replaceAll SLASH SLASH_PLACEHOLDER key')
  = replaceAll SLASH SLASH_PLACEHOLDER key' ->
  formatKey sanitize config key = inr s3Key ->
  formatKey sanitize config key' = inr s3Key ->
  key = key'.
Proof.
  intros Hwf Hwf' Hdu Hdu' Hsan Hsan' Hk Hk'.
  assert (Hne : key <> [])
    by (intros ->; unfold formatKey in Hk; discriminate Hk).
  assert (Hne' : key' <> [])
    by (intros ->; unfold formatKey in Hk'; discriminate Hk').
  destruct (formatKey_encoding sanitize config key Hne Hwf Hdu Hsan)
    as (x & Hx & Hd).
  destruct (formatKey_encoding sanitize config key' Hne' Hwf' Hdu' Hsan')
    as (x' & Hx' & Hd').
  rewrite Hx in Hk. rewrite Hx' in Hk'.
  injection Hk as Hk. injection Hk' as Hk'.
  rewrite <- Hk' in Hk. apply app_inv_head in Hk. subst x'.
  congruence.
Qed.

Lemma formatKey_injective_witness : js "a/b" = js "a/b".
Proof.
  exact (formatKey_injective Example.sanitize Example.config (js "a/b")
           (js "a/b") (js "test:a/b") eq_refl eq_refl eq_refl eq_refl
           eq_refl eq_refl eq_refl eq_refl).
Defined.

Section Collisions.
Local Open Scope N_scope.

Lemma withPlaceholders_no_separator key : ¬ In 47 (withPlaceholders key).
Proof.
  unfold withPlaceholders. induction key as [| c t IH]; [intros [] |].
  cbn [flat_map]. intros Hin. apply in_app_or in Hin as [Hin | Hin];
    [| exact (IH Hin)].
  destruct (N.eqb_spec 47 c) as [| Hc].
  - revert Hin. vm_compute. intuition discriminate.
  - destruct Hin as [-> | []]. contradiction.
Qed.

Lemma withPlaceholders_fixed s :
  ¬ In 47 s -> withPlaceholders s = s.
Proof.
  unfold withPlaceholders. induction s as [| c t IH]; intros Hno;
    [reflexivity |].
  cbn [flat_map]. destruct (N.eqb_spec 47 c) as [<- | _].
  - contradiction Hno. left. reflexivity.
  - cbn [app]. f_equal. apply IH. intros Hin. apply Hno. right. exact Hin.
Qed.

Lemma withPlaceholders_changes key :
  In 47 key -> withPlaceholders key <> key.
Proof.
  intros Hin Heq. apply (withPlaceholders_no_separator key).
  rewrite Heq. exact Hin.
Qed.
End Collisions.

(** X5: keys that the codec does not keep apart.  A key with a
    separator and the key that spells out the placeholder in its place are
    different keys with the same storage key, whatever the sanitizer
    does. *)
Theorem formatKey_placeholder_collides
    (sanitize : jsstring -> jsstring) (config : ProcessedS3StoreOptions)
    (key : jsstring) :
  In 47%N key ->
  let key' := replaceAll SLASH SLASH_PLACEHOLDER key in
  key' <> key
  ∧ formatKey sanitize config key' = formatKey sanitize config key.
Proof.
  intros Hin key'. subst key'.
  change SLASH with [47%N]. rewrite replaceAll_single.
  fold (withPlaceholders key).
  split; [apply withPlaceholders_changes, Hin |].
  unfold formatKey.
  change SLASH with [47%N]. rewrite !replaceAll_single.
  fold (withPlaceholders key). fold (withPlaceholders (withPlaceholders key)).
  rewrite (withPlaceholders_fixed _ (withPlaceholders_no_separator key)).
  assert (Hvalid : isValidCacheKey (withPlaceholders key)
                   = isValidCacheKey key).
  { destruct key as [| c t]; [reflexivity |].
    unfold withPlaceholders. cbn [flat_map].
    destruct (47 =? c)%N; reflexivity. }
  rewrite Hvalid. reflexivity.
Qed.

Lemma formatKey_placeholder_collides_witness :
  js "a__SLASH__b" <> js "a/b"
  ∧ formatKey Example.sanitize Example.config (js "a__SLASH__b")
    = formatKey Example.sanitize Example.config (js "a/b").
Proof.
  exact (formatKey_placeholder_collides Example.sanitize Example.config
           (js "a/b") ltac:(vm_compute; intuition)).
Defined.

Section ListedObjects.
Local Open Scope N_scope.

(** Replacing the placeholders of a string without separators and then
    the separators gives the string back. *)
Lemma placeholders_restored n : forall s,
  (length s <= n)%nat -> ¬ In 47 s ->
  replaceAll SLASH SLASH_PLACEHOLDER (replaceAll SLASH_PLACEHOLDER SLASH s)
  = s.
Proof.
  induction n as [| n IH]; intros s Hlen Hno.
  { destruct s; [reflexivity | simpl in Hlen; lia]. }
  destruct (stripPrefix SLASH_PLACEHOLDER s) as [rest |] eqn:Hstrip.
  - pose proof (stripPrefix_Some _ _ _ Hstrip) as ->.
    rewrite SLASH_PLACEHOLDER_head, replaceAll_match.
    rewrite <- SLASH_PLACEHOLDER_head.
    change SLASH with [47]. cbn [app]. rewrite replaceAll_single.
    cbn [flat_map]. change (47 =? 47) with true. cbv iota.
    rewrite <- replaceAll_single. change [47] with SLASH.
    rewrite IH; [reflexivity | rewrite length_app in Hlen; simpl in Hlen; lia |].
    intros Hin. apply Hno. apply in_or_app. right. exact Hin.
  - assert (Hunmatched : startsWith SLASH_PLACEHOLDER s = false)
      by (unfold startsWith; rewrite Hstrip; reflexivity).
    destruct s as [| c t]; [reflexivity |].
    rewrite (replaceAll_unmatched _ _ _ _ Hunmatched).
    assert (Hc : 47 <> c) by (intros <-; apply Hno; left; reflexivity).
    change SLASH with [47] at 1. rewrite replaceAll_single.
    cbn [flat_map]. destruct (N.eqb_spec 47 c) as [| _]; [contradiction |].
    rewrite <- replaceAll_single. change [47] with SLASH. cbn [app].
    rewrite IH; [reflexivity | simpl in Hlen; lia |].
    intros Hin. apply Hno. right. exact Hin.
Qed.

Lemma restored_nonempty s :
  s <> [] -> replaceAll SLASH_PLACEHOLDER SLASH s <> [].
Proof.
  destruct s as [| c t]; [contradiction |]. intros _.
  unfold replaceAll. cbn [replaceAll_from].
  destruct (startsWith SLASH_PLACEHOLDER (c :: t)); discriminate.
Qed.
End ListedObjects.

(** X6: the lookups of [scan] read the objects that were listed.  Take
    the storage key of a key whose sanitized form is a non-empty
    well-formed string without separator that the sanitizer leaves
    unchanged.  The key that [scan] decodes from it is formatted by [get]
    to the same storage key again. *)
Theorem scan_lookup_reads_listed_object
    (sanitize : jsstring -> jsstring) (config : ProcessedS3StoreOptions)
    (key : jsstring) (s3Key : CacheKey) :
  let sanitized := sanitize (replaceAll SLASH SLASH_PLACEHOLDER key) in
  isWellFormed sanitized = true ->
  sanitized <> [] ->
  ¬ In 47%N sanitized ->
  sanitize sanitized = sanitized ->
  formatKey sanitize config key = inr s3Key ->
  exists originalKey,
    originalKeyOf config s3Key = Some originalKey
    ∧ formatKey sanitize config originalKey = inr s3Key.
Proof.
  intros sanitized Hwf Hne Hno Hidem Hkey.
  destruct key as [| k key'];
    [unfold formatKey in Hkey; discriminate Hkey |].
  destruct (formatKey_decodes sanitize config (k :: key')
              ltac:(discriminate) Hwf) as (s3Key' & Hf & Ho).
  rewrite Hf in Hkey. injection Hkey as ->.
  fold sanitized in Ho.
  exists (replaceAll SLASH_PLACEHOLDER SLASH sanitized).
  split; [exact Ho |].
  rewrite <- Hf. unfold formatKey.
  assert (Hvalid : isValidCacheKey (replaceAll SLASH_PLACEHOLDER SLASH sanitized)
                   = true).
  { pose proof (restored_nonempty sanitized Hne) as Hr.
    destruct (replaceAll SLASH_PLACEHOLDER SLASH sanitized);
      [contradiction | reflexivity]. }
  rewrite Hvalid.
  rewrite (placeholders_restored _ sanitized (Nat.le_refl _) Hno), Hidem.
  reflexivity.
Qed.

Lemma scan_lookup_reads_listed_object_witness :
  originalKeyOf Example.config (js "test:a__b/cd") = Some (js "a__b/cd")
  ∧ formatKey Example.sanitize Example.config (js "a__b/cd")
    = inr (js "test:a__b/cd").
Proof.
  destruct (scan_lookup_reads_listed_object Example.sanitize Example.config
              (js "a__b/c:d") (js "test:a__b/cd") eq_refl
              ltac:(discriminate)
              ltac:(vm_compute; intuition discriminate) eq_refl eq_refl)
    as (originalKey & Ho & Hk).
  split; [reflexivity |].
  injection Ho as <-. exact Hk.
Defined.

Lemma formatKey_error sanitize config key e :
  formatKey sanitize config key = inl e ->
  e = ConfigurationError "Cache key must be a non-empty string"
  ∨ e = Native URIError.
Proof.
  unfold formatKey. destruct (isValidCacheKey key); [| intros [= <-]; auto].
  destruct (encodeURIComponent (sanitize _)); [| intros [= <-]; auto].
  destruct (encodeURIComponent SLASH_PLACEHOLDER); [discriminate |].
  intros [= <-]; auto.
Qed.



(** ** [set] and [get] *)

(** What [set] has done when it returns, in all cases. *)
Lemma set_outcome
    (T : Type) (JSON_stringify : JSValue T -> NativeError + string)
    (sanitize : jsstring -> jsstring) (toString : JSNumber -> string)
    (config : ProcessedS3StoreOptions)
    (key : jsstring) (value : JSValue T) (ttl : option Unknown)
    (w : World (SetArgs T)) :
  let w' :=
    set JSON_stringify sanitize toString config key value
      (match ttl with Some t => TtlGiven t | None => TtlOmitted end)
      invoke w in
  thrown w' = thrown w
  ∧ ((sent w' = sent w
      ∧ exists error,
          called w' = called w ++ [(Some error, Undefined)]
          ∧ forall msg statusCode cause,
              error <> S3OperationError msg statusCode cause)
     ∨ exists params,
         sent w' = sent w ++ [PutObjectCommand params]
         ∧ value <> Undefined
         ∧ match ttl with Some t => isValidTTL t = true | None => True end
         ∧ Bucket params = bucket config
         ∧ formatKey sanitize config key = inr (Key params)
         ∧ JSON_stringify value = inr (Body params)
         ∧ Metadata params =
           (if strictEquals (actualTtlOf config ttl) (-1)
            then unexpiringMetadata toString (clock w (reads w))
            else
              let expireAt :=
                plus (Finite (inject_Z (clock w (reads w))))
                  (timesPositive (actualTtlOf config ttl) 1000) in
              if strictEquals expireAt (-1)
              then unexpiringMetadata toString (clock w (S (reads w)))
              else <["cache-ttl" := toString expireAt]>
                     (unexpiringMetadata toString (clock w (S (reads w)))))
         ∧ called w' =
           called w ++
             match replies w with
             | [] => []
             | Resolved _ :: _ => [(None, value)]
             | Rejected error :: _ =>
                 [(Some (S3OperationError "Failed to store cache entry"
                           (httpStatusCode error) (Some (Rejection error))),
                   Undefined)]
             end).
Proof.
  intros w'. subst w'. unfold set, actualTtlOf.
  assert (Hkey : forall e, formatKey sanitize config key = inl e ->
            forall msg statusCode cause,
              e <> S3OperationError msg statusCode cause)
    by (intros e He msg statusCode cause ->;
        destruct (formatKey_error _ _ _ _ He); discriminate).
  destruct ttl as [t |]; [destruct (isValidTTL t) |];
    [| split; [reflexivity |]; left; split; [reflexivity |]; eexists;
       split; [reflexivity | discriminate] |];
    (destruct value as [| | v];
     [| destruct (formatKey sanitize config key) as [e | s3Key] eqn:Hk;
        [| match goal with
           | |- context [strictEquals ?n ?m] => destruct (strictEquals n m)
           end;
           (destruct (JSON_stringify _) as [e | text] eqn:Hs;
            [| unfold DateNow;
               (destruct (replies w) as [| [result | error] rest] eqn:Hr;
                [rewrite send_pending by reflexivity
                | erewrite send_settled by reflexivity ..])]) ] ..]);
    (split; [reflexivity |]);
    first
      [ left; split; [reflexivity |]; eexists;
        split; [reflexivity |];
        solve [discriminate | apply Hkey; first [exact Hk | reflexivity]]
      | right; eexists; split; [reflexivity |];
        split; [discriminate |]; split; [exact I || reflexivity |];
        split; [reflexivity |]; split; [reflexivity |];
        split; [reflexivity |]; split; [reflexivity |];
        simpl; rewrite ?app_nil_r; reflexivity ].
Qed.






(** X10: the TTL [Infinity] is a valid TTL, and an entry written with it
    never expires: the put carries the expiry attribute with the text
    [Infinity], which does not parse as a time. *)
Theorem set_infinite_number_never_expires
    (T : Type) (JSON_stringify : JSValue T -> NativeError + string)
    (sanitize : jsstring -> jsstring) (toString : JSNumber -> string)
    (config : ProcessedS3StoreOptions)
    (key : jsstring) (value : JSValue T) (params : PutObjectCommandInput)
    (w : World (SetArgs T)) :
  toString (Infinity false) = "Infinity" ->
  sent
    (set JSON_stringify sanitize toString config key value
       (TtlGiven (IsNumber (Infinity false))) invoke w)
  = sent w ++ [PutObjectCommand params] ->
  isValidTTL (IsNumber (Infinity false)) = true
  ∧ Metadata params !! "cache-ttl" = Some "Infinity"
  ∧ forall now, unexpiredAt (Metadata params) now.
Proof.
  intros Hstr Hsent. split; [reflexivity |].
  destruct (set_outcome T JSON_stringify sanitize toString config key value
              (Some (IsNumber (Infinity false))) w)
    as [_ [[Hnone _] | (params' & Hsent' & _ & _ & _ & _ & _ & Hm & _)]].
  { rewrite Hnone in Hsent. apply (f_equal length) in Hsent.
    rewrite length_app in Hsent. simpl in Hsent. lia. }
  rewrite Hsent' in Hsent. apply app_inv_head in Hsent.
  injection Hsent as ->.
  cbn [actualTtlOf numberOf strictEquals timesPositive plus] in Hm.
  cbv zeta in Hm. cbn [strictEquals] in Hm. rewrite Hstr in Hm.
  assert (Hl : Metadata params !! "cache-ttl" = Some "Infinity")
    by (rewrite Hm; apply lookup_insert_eq).
  split; [exact Hl |].
  intros now. unfold unexpiredAt. rewrite Hl. exact I.
Qed.

Lemma set_infinite_number_never_expires_witness :
  exists params,
    sent
      (set Example.JSON_stringify Example.sanitize Example.toString
         Example.config (js "k") (Value 42)
         (TtlGiven (IsNumber (Infinity false))) invoke (Example.start [] 1000))
    = [PutObjectCommand params]
    ∧ unexpiredAt (Metadata params) 9999999999999.
Proof.
  eexists. split; [reflexivity |].
  exact (proj2 (proj2 (set_infinite_number_never_expires Z
    Example.JSON_stringify Example.sanitize Example.toString Example.config
    (js "k") (Value 42) _ (Example.start [] 1000) eq_refl eq_refl))
    9999999999999).
Defined.

Section GetOutcome.
Variable T : Type.
Variable JSON_parse : string -> NativeError + JSValue T.
Variable sanitize : jsstring -> jsstring.
Variable config : ProcessedS3StoreOptions.

(** The entry read is served: the body decides what is called back. *)
Lemma get_served {R} key s3Key result rest
    (callback : GetArgs T -> Action R) (w : World R) :
  formatKey sanitize config key = inr s3Key ->
  replies w = Resolved result :: rest ->
  match outMetadata result with
  | Some metadata => unexpiredAt metadata (clock w (reads w))
  | None => True
  end ->
  exists reads',
    get JSON_parse sanitize config key callback w =
    callback (bodyOutcome JSON_parse (outBody result))
      {| replies := rest; clock := clock w; reads := reads';
         sent := sent w ++ [GetObjectCommand (bucket config) s3Key];
         called := called w; thrown := thrown w |}.
Proof.
  intros Hk Hr Hfresh. unfold get. rewrite Hk.
  rewrite (send_settled _ _ _ _ _ Hr).
  assert (Hbody : forall w0 : World R,
    match outBody result with
    | Readable stream =>
        streamToString stream (fun error bodyText =>
          match error with
          | Some error => callback (Some error, Undefined)
          | None =>
              match JSON_parse (default EmptyString bodyText) with
              | inr value => callback (None, value)
              | inl parseError =>
                  callback
                    (Some (SerializationError "Failed to parse cached value"
                             (Some parseError)), Undefined)
              end
          end)
    | NotReadable =>
        callback
          (Some (S3OperationError "Unexpected response body format"
                   None None), Undefined)
    end w0 = callback (bodyOutcome JSON_parse (outBody result)) w0).
  { intros w0. destruct (outBody result) as [[[e | text] | e] |];
      simpl; try reflexivity.
    destruct (JSON_parse text); reflexivity. }
  destruct (outMetadata result) as [metadata |];
    [| rewrite Hbody; eexists; reflexivity].
  unfold isExpired. unfold unexpiredAt in Hfresh.
  destruct (metadata !! "cache-ttl") as [ttl |];
    [| rewrite Hbody; eexists; reflexivity].
  destruct (truthy ttl); [| rewrite Hbody; eexists; reflexivity].
  destruct (parseInt10 ttl) as [expirationTime |];
    [| rewrite Hbody; eexists; reflexivity].
  unfold DateNow. world_simpl.
  replace (clock w (reads w) >? expirationTime) with false
    by (symmetry; rewrite Z.gtb_ltb; apply Z.ltb_ge; exact Hfresh).
  rewrite Hbody. eexists; reflexivity.
Qed.

End GetOutcome.


(** X12: an entry whose expiry attribute parses to a time that is not
    before the current one, the instant of expiry included, is served:
    [get] sends the read and no delete, and calls back once, with the
    parsed body when the body is a stream of text that parses.  A text
    that does not parse gives a SerializationError, a stream that fails or
    a body that is not a stream an S3OperationError: none of them is
    reported as a miss. *)
Theorem get_serves_unexpired_entry
    (T : Type) (JSON_parse : string -> NativeError + JSValue T)
    (sanitize : jsstring -> jsstring) (config : ProcessedS3StoreOptions)
    (key : jsstring) (s3Key : CacheKey) (result : Output)
    (metadata : gmap string string) (ttl : string) (expirationTime : Z)
    (rest : list Reply) (w : World (GetArgs T)) :
  formatKey sanitize config key = inr s3Key ->
  replies w = Resolved result :: rest ->
  outMetadata result = Some metadata ->
  metadata !! "cache-ttl" = Some ttl ->
  parseInt10 ttl = Some expirationTime ->
  clock w (reads w) <= expirationTime ->
  let w' := get JSON_parse sanitize config key invoke w in
  sent w' = sent w ++ [GetObjectCommand (bucket config) s3Key]
  ∧ called w' =
    called w ++
      [match outBody result with
       | Readable (StreamEnd (inr text)) =>
           match JSON_parse text with
           | inr value => (None, value)
           | inl parseError =>
               (Some (SerializationError "Failed to parse cached value"
                        (Some parseError)), Undefined)
           end
       | Readable (StreamEnd (inl error)) =>
           (Some (S3OperationError "Failed to convert stream to string"
                    None (Some error)), Undefined)
       | Readable (StreamError error) =>
           (Some (S3OperationError "Failed to read stream" None
                    (Some error)), Undefined)
       | NotReadable =>
           (Some (S3OperationError "Unexpected response body format"
                    None None), Undefined)
       end].
Proof.
  intros Hk Hr Hm Ht Hp Hle w'. subst w'.
  destruct (get_served T JSON_parse sanitize config key s3Key result rest
              invoke w Hk Hr) as [reads' ->].
  - rewrite Hm. unfold unexpiredAt. rewrite Ht, Hp. exact Hle.
  - split; reflexivity.
Qed.

Lemma get_serves_unexpired_entry_witness :
  called
    (get Example.JSON_parse Example.sanitize Example.config (js "k") invoke
       (Example.start
          [Resolved (Example.object "42" {[ "cache-ttl" := "1000" ]})] 1000))
  = [(None, Value 42)].
Proof.
  exact (proj2 (get_serves_unexpired_entry Z Example.JSON_parse
    Example.sanitize Example.config (js "k") (js "test:k")
    (Example.object "42" {[ "cache-ttl" := "1000" ]})
    {[ "cache-ttl" := "1000" ]} "1000" 1000 []
    (Example.start
       [Resolved (Example.object "42" {[ "cache-ttl" := "1000" ]})] 1000)
    eq_refl eq_refl eq_refl eq_refl eq_refl ltac:(simpl; lia))).
Defined.

(** X13: what [set] puts is what [get] gets back.  Let a store answer the
    read of [get] with the body and the attributes of the put that [set]
    sent for the same key, and let the body parse back to the value.
    While the entry has not expired, [get] reads the storage key that
    [set] wrote and calls back with the value; once it has expired, [get]
    deletes that storage key and reports a miss when the delete is
    answered; and an entry written with the TTL -1 never expires. *)
Theorem set_get_round_trip
    (T : Type) (JSON_stringify : JSValue T -> NativeError + string)
    (JSON_parse : string -> NativeError + JSValue T)
    (sanitize : jsstring -> jsstring) (toString : JSNumber -> string)
    (config : ProcessedS3StoreOptions)
    (key : jsstring) (value : JSValue T) (ttl : option Unknown)
    (params : PutObjectCommandInput) (w : World (SetArgs T))
    (rest : list Reply) (w2 : World (GetArgs T)) :
  sent
    (set JSON_stringify sanitize toString config key value
       (match ttl with Some t => TtlGiven t | None => TtlOmitted end)
       invoke w)
  = sent w ++ [PutObjectCommand params] ->
  JSON_parse (Body params) = inr value ->
  replies w2 = Resolved (storedObject params) :: rest ->
  let w2' := get JSON_parse sanitize config key invoke w2 in
  (unexpiredAt (Metadata params) (clock w2 (reads w2)) ->
   sent w2' = sent w2 ++ [GetObjectCommand (Bucket params) (Key params)]
   ∧ called w2' = called w2 ++ [(None, value)])
  ∧ (¬ unexpiredAt (Metadata params) (clock w2 (reads w2)) ->
     sent w2' =
     sent w2 ++ [GetObjectCommand (Bucket params) (Key params);
                 DeleteObjectCommand (Bucket params) (Key params)]
     ∧ called w2' =
       called w2 ++ match rest with [] => [] | _ => [(None, Null)] end)
  ∧ (strictEquals
       (match ttl with Some t => numberOf t | None => defaultTtl config end)
       (-1) = true ->
     forall now, unexpiredAt (Metadata params) now).
Proof.
  intros Hsent Hjson Hr w2'. subst w2'.
  destruct (set_outcome T JSON_stringify sanitize toString config key value
              ttl w)
    as [_ [[Hnone _] | (params' & Hsent' & _ & _ & Hb & Hk & _ & Hm & _)]].
  { rewrite Hnone in Hsent. apply (f_equal length) in Hsent.
    rewrite length_app in Hsent. simpl in Hsent. lia. }
  rewrite Hsent' in Hsent. apply app_inv_head in Hsent.
  injection Hsent as ->. rewrite Hb. split; [| split].
  - intros Hfresh.
    destruct (get_served T JSON_parse sanitize config key (Key params)
                (storedObject params) rest invoke w2 Hk Hr Hfresh)
      as [reads' ->].
    cbn [storedObject outBody bodyOutcome]. rewrite Hjson.
    split; reflexivity.
  - intros Hstale. unfold unexpiredAt in Hstale.
    destruct (Metadata params !! "cache-ttl") as [ttlText |] eqn:Ht;
      [| contradiction Hstale; exact I].
    destruct (parseInt10 ttlText) as [expirationTime |] eqn:Hp;
      [| contradiction Hstale; exact I].
    unfold get. rewrite Hk, (send_settled _ _ _ _ _ Hr).
    cbn [storedObject outMetadata].
    rewrite (isExpired_readable _ _ _ _ _ Ht Hp). world_simpl.
    replace (clock w2 (reads w2) >? expirationTime) with true
      by (symmetry; apply Z.gtb_lt; lia).
    destruct rest as [| deleteReply rest'].
    + rewrite (del_pending sanitize config key (Key params))
        by (assumption || reflexivity).
      simpl. rewrite <- app_assoc, app_nil_r. split; reflexivity.
    + rewrite (del_settled sanitize config key (Key params) _ _ deleteReply
                 rest') by (assumption || reflexivity).
      simpl. rewrite <- app_assoc. split; reflexivity.
  - intros Hinf now. unfold actualTtlOf in Hm. rewrite Hinf in Hm.
    unfold unexpiredAt. rewrite Hm.
    rewrite (proj1 (unexpiringMetadata_keys toString _)). exact I.
Qed.

Lemma set_get_round_trip_witness :
  exists params,
    sent
      (set Example.JSON_stringify Example.sanitize Example.toString
         Example.config (js "user/1") (Value 42)
         (TtlGiven (IsNumber (Finite 60))) invoke (Example.start [] 1000))
    = [PutObjectCommand params]
    ∧ called
        (get Example.JSON_parse Example.sanitize Example.config
           (js "user/1") invoke
           (Example.start [Resolved (storedObject params)] 2000))
      = [(None, Value 42)].
Proof.
  eexists. split; [reflexivity |].
  refine (proj2 (proj1 (set_get_round_trip Z Example.JSON_stringify
    Example.JSON_parse Example.sanitize Example.toString Example.config
    (js "user/1") (Value 42) (Some (IsNumber (Finite 60))) _
    (Example.start [] 1000) []
    (Example.start [Resolved (storedObject _)] 2000)
    eq_refl eq_refl eq_refl) _)).
  vm_compute. discriminate.
Defined.

(** ** [del] *)

(** X14: [del] sends one delete for the storage key and reports the
    outcome as it is: success when the store resolves, an S3OperationError
    with the status of the rejection when it rejects.  This holds also for
    the not-found rejection, which [get] turns into a miss. *)
Theorem del_reports_every_rejection
    (T : Type) (JSON_parse : string -> NativeError + JSValue T)
    (sanitize : jsstring -> jsstring) (config : ProcessedS3StoreOptions)
    (key : jsstring) (s3Key : CacheKey) (reply : Reply) (rest : list Reply)
    (w : World DeleteArgs) (w2 : World (GetArgs T)) :
  formatKey sanitize config key = inr s3Key ->
  replies w = reply :: rest ->
  let w' := del sanitize config key invoke w in
  sent w' = sent w ++ [DeleteObjectCommand (bucket config) s3Key]
  ∧ called w' =
    called w ++
      [match reply with
       | Resolved _ => None
       | Rejected error =>
           Some (S3OperationError "Failed to delete cache entry"
                   (httpStatusCode error) (Some (Rejection error)))
       end]
  ∧ (forall error,
       reply = Rejected error -> isNotFound error = true ->
       replies w2 = reply :: rest ->
       called (get JSON_parse sanitize config key invoke w2)
       = called w2 ++ [(None, Null)]).
Proof.
  intros Hk Hr w'. subst w'. unfold del. rewrite Hk.
  rewrite (send_settled _ _ _ _ _ Hr).
  split; [destruct reply; reflexivity |].
  split; [destruct reply; reflexivity |].
  intros error -> Hnf Hr2. unfold get. rewrite Hk.
  rewrite (send_settled _ _ _ _ _ Hr2), Hnf. reflexivity.
Qed.

Lemma del_reports_every_rejection_witness :
  called
    (del Example.sanitize Example.config (js "missing") invoke
       (Example.start [Rejected Example.noSuchKey] 1000))
  = [Some (S3OperationError "Failed to delete cache entry" (Some 404)
             (Some (Rejection Example.noSuchKey)))].
Proof.
  exact (proj1 (proj2 (del_reports_every_rejection Z Example.JSON_parse
    Example.sanitize Example.config (js "missing") (js "test:missing")
    (Rejected Example.noSuchKey) []
    (Example.start [Rejected Example.noSuchKey] 1000)
    (Example.start [Rejected Example.noSuchKey] 1000) eq_refl eq_refl))).
Defined.

(** ** [clear] and the listing *)

(** X15: [listAllObjects] follows the continuation tokens: it sends one
    listing for each page, with the token of the page before, collects the
    non-empty keys of all pages in their order and calls back once with
    them; a rejected page ends the listing with an S3OperationError and no
    keys. *)
Theorem listAllObjects_collects_pages
    (config : ProcessedS3StoreOptions) (pages : list Output) (final : Reply)
    (rest : list Reply)
    (w : World (option JSError * option (list jsstring))) :
  Forall (fun page => IsTruncated page = true) pages ->
  match final with
  | Resolved last => IsTruncated last = false
  | Rejected _ => True
  end ->
  replies w = map Resolved pages ++ final :: rest ->
  let w' := listAllObjects config (fun error objects => invoke (error, objects)) w in
  called w' =
  called w ++
    [match final with
     | Resolved last => (None, Some (collected (pages ++ [last])))
     | Rejected error => (Some (listError error), None)
     end]
  ∧ sent w' = sent w ++ listingCommands config None pages
  ∧ replies w' = rest.
Proof.
  intros Htr Hfin Hr w'. subst w'. unfold listAllObjects.
  rewrite Hr, listBatch_pages by assumption.
  destruct final; repeat split.
Qed.

Lemma listAllObjects_collects_pages_witness :
  called
    (listAllObjects Example.config (fun error objects => invoke (error, objects))
       (Example.start
          [Resolved (Example.page [js "test:a"; []] true (Some "next"));
           Resolved (Example.page [js "test:b"] false None)] 1000))
  = [(None, Some [js "test:a"; js "test:b"])].
Proof.
  exact (proj1 (listAllObjects_collects_pages Example.config
    [Example.page [js "test:a"; []] true (Some "next")]
    (Resolved (Example.page [js "test:b"] false None)) []
    (Example.start
       [Resolved (Example.page [js "test:a"; []] true (Some "next"));
        Resolved (Example.page [js "test:b"] false None)] 1000)
    ltac:(repeat constructor) eq_refl eq_refl)).
Defined.

(** X16: for a positive chunk size the chunks of [chunkArray] partition
    the array: concatenated they give the array back, none is empty, none
    is longer than the size, and there are no more chunks than
    elements. *)
Theorem chunkArray_partitions {U} (array : list U) (chunkSize : nat) :
  (0 < chunkSize)%nat ->
  concat (chunkArray array chunkSize) = array
  ∧ Forall (fun chunk => (0 < length chunk <= chunkSize)%nat)
      (chunkArray array chunkSize)
  ∧ (length (chunkArray array chunkSize) <= length array)%nat.
Proof.
  intros Hpos. destruct (chunkArray_covers array chunkSize Hpos) as [Hcat Hall].
  split; [exact Hcat |]. split; [exact Hall |].
  rewrite <- Hcat at 2. clear Hcat.
  induction Hall as [| chunk chunks Hchunk _ IH]; [reflexivity |].
  cbn [concat length]. rewrite length_app. lia.
Qed.

Lemma chunkArray_partitions_witness :
  chunkArray [1; 2; 3; 4; 5] 2 = [[1; 2]; [3; 4]; [5]]
  ∧ concat (chunkArray [1; 2; 3; 4; 5] 2) = [1; 2; 3; 4; 5].
Proof.
  split; [reflexivity |].
  exact (proj1 (chunkArray_partitions [1; 2; 3; 4; 5] 2 ltac:(lia))).
Defined.

Section ClearSent.
Variable config : ProcessedS3StoreOptions.

Lemma sent_awaitBatches (pending batches : nat) :
  forall (st : ClearState) (w : World ClearArgs),
    sent (awaitBatches pending batches invoke st w) = sent w.
Proof.
  induction pending as [| pending IH]; intros st w; [reflexivity |].
  cbn [awaitBatches]. unfold nextReply.
  destruct (replies w) as [| reply rest]; [reflexivity |].
  destruct reply as [result | error]; cbn [batchSettled];
    destruct (hasError st); rewrite ?IH; try reflexivity.
  destruct (S (completed st) =? batches)%nat; reflexivity.
Qed.

Lemma keysOf_nonempty (contents : list (option jsstring)) :
  Forall (fun Key => Key <> []) (keysOf contents).
Proof.
  unfold keysOf. apply Forall_forall. intros Key HKey.
  apply list_elem_of_filter in HKey as [Hne _]. exact Hne.
Qed.

Lemma collected_nonempty (pages : list Output) :
  Forall (fun Key => Key <> []) (collected pages).
Proof.
  unfold collected. induction pages as [| page more IH]; [constructor |].
  cbn [flat_map]. apply Forall_app. split; [| exact IH].
  destruct (Contents page); [apply keysOf_nonempty | constructor].
Qed.
End ClearSent.

(** X17: when the listing of [clear] succeeds, the deletes sent cover the
    listed keys exactly: concatenated, the batches are the keys in the
    order listed, every batch has between 1 and 1000 keys and no key is
    empty, whatever the store answers to the deletes. *)
Theorem clear_deletes_every_listed_key
    (config : ProcessedS3StoreOptions) (pages : list Output) (last : Output)
    (rest : list Reply) (w : World ClearArgs) :
  Forall (fun page => IsTruncated page = true) pages ->
  IsTruncated last = false ->
  replies w = map Resolved pages ++ Resolved last :: rest ->
  exists batches,
    sent (clear config invoke w) =
    sent w ++ listingCommands config None pages
      ++ map (DeleteObjectsCommand (bucket config)) batches
    ∧ concat batches = collected (pages ++ [last])
    ∧ Forall (fun batch => (1 <= length batch <= 1000)%nat) batches
    ∧ Forall (fun Key => Key <> []) (concat batches).
Proof.
  intros Htr Hlast Hr.
  exists (chunkArray (collected (pages ++ [last])) 1000).
  destruct (chunkArray_covers (collected (pages ++ [last])) 1000 ltac:(lia))
    as [Hcat Hall].
  split; [| split; [exact Hcat | split]].
  - unfold clear, listAllObjects. rewrite Hr.
    rewrite (listBatch_pages config pages (Resolved last) rest)
      by assumption.
    cbn [app].
    destruct (collected (pages ++ [last])) as [| object objects] eqn:Hc.
    + change (chunkArray [] 1000) with (@nil (list jsstring)).
      unfold invoke. world_simpl. cbn [map]. rewrite app_nil_r. reflexivity.
    + rewrite sent_awaitBatches, sent_all_batches. world_simpl.
      rewrite <- app_assoc. reflexivity.
  - eapply Forall_impl; [exact Hall |]. intros batch Hb. simpl in Hb. lia.
  - rewrite Hcat. apply collected_nonempty.
Qed.

Lemma clear_deletes_every_listed_key_witness :
  exists batches,
    sent
      (clear Example.config invoke
         (Example.start
            [Resolved (Example.page [js "test:a"; []] true (Some "t"));
             Resolved (Example.page [js "test:c"] false None)] 1000))
    = [ListObjectsV2Command "test-bucket" (js "test:") None None;
       ListObjectsV2Command "test-bucket" (js "test:") None (Some "t")]
      ++ map (DeleteObjectsCommand "test-bucket") batches
    ∧ concat batches = [js "test:a"; js "test:c"]
    ∧ Forall (fun batch => (1 <= length batch <= 1000)%nat) batches
    ∧ Forall (fun Key => Key <> []) (concat batches).
Proof.
  exact (clear_deletes_every_listed_key Example.config
           [Example.page [js "test:a"; []] true (Some "t")]
           (Example.page [js "test:c"] false None) []
           (Example.start
              [Resolved (Example.page [js "test:a"; []] true (Some "t"));
               Resolved (Example.page [js "test:c"] false None)] 1000)
           ltac:(repeat constructor) eq_refl eq_refl).
Defined.

Section ClearOnce.
Variable config : ProcessedS3StoreOptions.


End ClearOnce.


(** ** [scan] *)


Section ScanOnce.
Variable T : Type.
Variable JSON_parse : string -> NativeError + JSValue T.
Variable sanitize : jsstring -> jsstring.
Variable config : ProcessedS3StoreOptions.






End ScanOnce.



(** X20: [scan] succeeds on the keys of the library.  When every object
    of the listing has a storage key that [formatKey] gives for some key,
    the callback receives a result, not an error, once the lookups are
    answered; the keys looked up are sanitized keys with their separators
    restored, and every entry reported has one of them as its key. *)
Theorem scan_succeeds_on_own_keys
    (T : Type) (JSON_parse : string -> NativeError + JSValue T)
    (sanitize : jsstring -> jsstring) (config : ProcessedS3StoreOptions)
    (pattern : option jsstring) (limit : option JSNumber)
    (listPrefix : jsstring) (result : Output) (rest : list Reply)
    (lookups : nat -> World (GetArgs T)) (arrival : list nat)
    (w : World (ScanArgs T)) :
  let objects := default [] (Contents result) in
  let issued := issuedKeys config objects in
  scanPrefix sanitize config (default [] pattern) = Some listPrefix ->
  replies w = Resolved result :: rest ->
  Forall
    (fun obj =>
       exists key s3Key,
         isWellFormed (sanitize (replaceAll SLASH SLASH_PLACEHOLDER key))
         = true
         ∧ formatKey sanitize config key = inr s3Key
         ∧ obj = Some s3Key)
    objects ->
  arrival ≡ₚ seq 0 (length issued) ->
  (forall i, (i < length issued)%nat ->
     called (lookups i) = [] ∧ (2 <= length (replies (lookups i)))%nat) ->
  let w' :=
    scan JSON_parse sanitize config
      (match pattern with Some p => PatternGiven p | None => PatternOmitted end)
      (match limit with Some n => LimitGiven n | None => LimitOmitted end)
      (Some invoke) lookups arrival w in
  exists scanned,
    called w' = called w ++ [(None, Some scanned)]
    ∧ Forall
        (fun originalKey =>
           exists key,
             originalKey
             = replaceAll SLASH_PLACEHOLDER SLASH
                 (sanitize (replaceAll SLASH SLASH_PLACEHOLDER key)))
        issued
    ∧ Forall (fun entry => In (fst entry) issued) (entries scanned).
Proof.
  intros objects issued Hprefix Hr Hown Hperm Hlookups w'. subst w'.
  assert (Hkeys : Forall
    (fun obj =>
       match obj with
       | Some (c :: Key) =>
           exists key,
             originalKeyOf config (c :: Key)
             = Some (replaceAll SLASH_PLACEHOLDER SLASH
                       (sanitize (replaceAll SLASH SLASH_PLACEHOLDER key)))
       | _ => True
       end) objects).
  { eapply Forall_impl; [exact Hown |].
    intros [[| c Key] |] (key & s3Key & Hwf & Hkey & Hobj); try exact I.
    exists key. injection Hobj as <-.
    destruct key as [| k key'];
      [unfold formatKey in Hkey; discriminate Hkey |].
    destruct (formatKey_decodes sanitize config (k :: key')
                ltac:(discriminate) Hwf) as (s3Key & Hf & Ho).
    rewrite Hf in Hkey. injection Hkey as ->. exact Ho. }
  assert (Hdec : Forall (decodes config) objects).
  { eapply Forall_impl; [exact Hkeys |].
    intros [[| c Key] |] H; try exact I.
    destruct H as [key H]. cbn [decodes]. rewrite H. discriminate. }
  assert (Hissued : Forall
    (fun originalKey =>
       exists key,
         originalKey
         = replaceAll SLASH_PLACEHOLDER SLASH
             (sanitize (replaceAll SLASH SLASH_PLACEHOLDER key)))
    issued).
  { subst issued. clear Hperm Hlookups Hown Hdec.
    induction Hkeys as [| obj more Hobj _ IH]; [constructor |].
    rewrite issuedKeys_cons.
    destruct obj as [[| c Key] |]; try exact IH.
    destruct Hobj as [key Ho]. rewrite Ho.
    constructor; [exists key; reflexivity | exact IH]. }
  exists {| cursor := match objects with
                      | [] => CursorNumber 0
                      | _ => cursorOf result
                      end;
            entries := keptEntries JSON_parse sanitize config issued lookups
                         arrival |}.
  split; [| split; [exact Hissued |]].
  - unfold scan.
    destruct pattern as [p |], limit as [l |];
      [ change (scanPrefix sanitize config p = Some listPrefix) in Hprefix ..
      | change (scanPrefix sanitize config [] = Some listPrefix) in Hprefix
      | change (scanPrefix sanitize config [] = Some listPrefix) in Hprefix ];
      cbv beta iota; rewrite Hprefix, (send_settled _ _ _ _ _ Hr);
      rewrite scanListed_decoded by assumption; reflexivity.
  - cbn [entries]. apply Forall_forall. intros [originalKey data] Hin.
    unfold keptEntries in Hin. apply list_elem_of_omap in Hin
      as (i & _ & Hkept).
    unfold keptEntry in Hkept.
    destruct (issued !! i) as [key |] eqn:Hi; [| discriminate Hkept].
    cbn [mbind option_bind] in Hkept.
    destruct (head (delivered JSON_parse sanitize config lookups i key))
      as [[[e |] [| | d]] |]; try discriminate Hkept.
    cbn [mbind option_bind] in Hkept. injection Hkept as <- <-.
    cbn [fst]. apply list_elem_of_In. eapply list_elem_of_lookup_2, Hi.
Qed.

Lemma scan_succeeds_on_own_keys_witness :
  exists scanned,
    called
      (scan Example.JSON_parse Example.sanitize Example.config
         PatternOmitted LimitOmitted (Some invoke)
         (fun _ =>
            Example.start
              [Resolved (Example.object "42" {[ "cache-ttl" := "5000" ]});
               Resolved Example.emptyOutput] 1000)
         [0%nat]
         (Example.start
            [Resolved (Example.page [js "test:a/b%20c"] false None)] 1000))
    = [(None, Some scanned)].
Proof.
  pose (listing := Example.page [js "test:a/b%20c"] false None).
  pose (lookups := fun _ : nat =>
    Example.start (R := GetArgs Z)
      [Resolved (Example.object "42" {[ "cache-ttl" := "5000" ]});
       Resolved Example.emptyOutput] 1000).
  assert (Hown : Forall
    (fun obj =>
       exists key s3Key,
         isWellFormed
           (Example.sanitize (replaceAll SLASH SLASH_PLACEHOLDER key)) = true
         ∧ formatKey Example.sanitize Example.config key = inr s3Key
         ∧ obj = Some s3Key)
    (default [] (Contents listing))).
  { repeat constructor. exists (js "a/b c"), (js "test:a/b%20c").
    repeat split. }
  assert (Hanswered : forall i,
            (i < length (issuedKeys Example.config
                           (default [] (Contents listing))))%nat ->
            called (lookups i) = []
            ∧ (2 <= length (replies (lookups i)))%nat)
    by (intros i Hi; split; [reflexivity | simpl; lia]).
  destruct (scan_succeeds_on_own_keys Z Example.JSON_parse Example.sanitize
              Example.config None None (js "test:") listing [] lookups
              [0%nat] (Example.start [Resolved listing] 1000)
              eq_refl eq_refl Hown (Permutation_refl _) Hanswered)
    as (scanned & Hcalled & _).
  exists scanned. exact Hcalled.
Defined.

(** X21: a pattern whose sanitized form cannot be percent-encoded (it has
    an unpaired surrogate) makes [scan] throw the URIError to its caller:
    nothing is sent and the callback is not called.  [get] with the same
    string as key catches the error and passes it to its callback. *)
Theorem scan_unencodable_pattern_throws
    (T : Type) (JSON_parse : string -> NativeError + JSValue T)
    (sanitize : jsstring -> jsstring) (config : ProcessedS3StoreOptions)
    (pattern : jsstring) (limit : option JSNumber)
    (lookups : nat -> World (GetArgs T)) (arrival : list nat)
    (w : World (ScanArgs T)) (w2 : World (GetArgs T)) :
  pattern <> [] ->
  encodeURIComponent (sanitize (replaceAll SLASH SLASH_PLACEHOLDER pattern))
  = None ->
  let w' :=
    scan JSON_parse sanitize config (PatternGiven pattern)
      (match limit with Some n => LimitGiven n | None => LimitOmitted end)
      (Some invoke) lookups arrival w in
  let w2' := get JSON_parse sanitize config pattern invoke w2 in
  (thrown w' = thrown w ++ [Native URIError]
   ∧ called w' = called w ∧ sent w' = sent w)
  ∧ (thrown w2' = thrown w2
     ∧ called w2' = called w2 ++ [(Some (Native URIError), Undefined)]
     ∧ sent w2' = sent w2).
Proof.
  intros Hne Henc w' w2'. subst w' w2'. split.
  - unfold scan.
    assert (Hp : scanPrefix sanitize config pattern = None)
      by (unfold scanPrefix; destruct pattern; [contradiction |];
          rewrite Henc; reflexivity).
    destruct limit; cbv beta iota; rewrite Hp; repeat split.
  - unfold get.
    assert (Hk : formatKey sanitize config pattern = inl (Native URIError))
      by (unfold formatKey; destruct pattern; [contradiction |];
          cbn [isValidCacheKey length Nat.eqb negb]; rewrite Henc;
          reflexivity).
    rewrite Hk. repeat split.
Qed.

Lemma scan_unencodable_pattern_throws_witness :
  thrown
    (scan Example.JSON_parse Example.sanitize Example.config
       (PatternGiven [55296%N]) LimitOmitted (Some invoke)
       (fun _ => Example.start [] 1000) []
       (Example.start [Resolved Example.emptyOutput] 1000))
  = [Native URIError].
Proof.
  exact (proj1 (proj1 (scan_unencodable_pattern_throws Z Example.JSON_parse
    Example.sanitize Example.config [55296%N] None
    (fun _ => Example.start [] 1000) []
    (Example.start [Resolved Example.emptyOutput] 1000)
    (Example.start [] 1000) ltac:(discriminate) eq_refl))).
Defined.

(** ** The constructor *)


(** X22: what [validateAndProcessOptions] accepts.  It returns a
    configuration when the bucket is a non-empty string, the default TTL
    is undefined or valid, and the access key id and the secret access key
    are both given or both left out; the configuration has that bucket and
    a valid default TTL, which is 60 when none was given.  Otherwise one
    of the three conditions fails and the error is a
    ConfigurationError. *)
Theorem validateAndProcessOptions_accepts (options : S3StoreOptions.t) :
  match validateAndProcessOptions options with
  | inr (config, connection) =>
      S3StoreOptions.bucket options = Some (bucket config)
      ∧ bucket config <> EmptyString
      ∧ isValidTTL (IsNumber (defaultTtl config)) = true
      ∧ match S3StoreOptions.defaultTtl options with
        | Some ttl => ttl = IsNumber (defaultTtl config)
        | None => defaultTtl config = Finite 60
        end
      ∧ truthyOpt (Connection.accessKeyId connection)
        = truthyOpt (Connection.secretAccessKey connection)
  | inl error =>
      (exists msg, error = ConfigurationError msg)
      ∧ (truthyOpt (S3StoreOptions.bucket options) = false
         ∨ (exists ttl,
              S3StoreOptions.defaultTtl options = Some ttl
              ∧ isValidTTL ttl = false)
         ∨ truthyOpt (S3StoreOptions.accessKeyId options)
           <> truthyOpt (S3StoreOptions.secretAccessKey options))
  end.
Proof.
  unfold validateAndProcessOptions.
  destruct (S3StoreOptions.bucket options) as [b |];
    [| split; [eexists; reflexivity | left; reflexivity]].
  destruct (truthy b) eqn:Hb;
    [| split; [eexists; reflexivity | left; exact Hb]].
  destruct (S3StoreOptions.defaultTtl options) as [ttl |] eqn:Httl.
  - destruct (isValidTTL ttl) eqn:Hv; cbn [negb];
      [| split; [eexists; reflexivity | right; left; eauto]].
    destruct (truthyOpt (S3StoreOptions.accessKeyId options)) eqn:Ha,
      (truthyOpt (S3StoreOptions.secretAccessKey options)) eqn:Hs;
      cbn [andb negb];
      try (split; [eexists; reflexivity | right; right; discriminate]);
      cbn [bucket defaultTtl Connection.accessKeyId
           Connection.secretAccessKey];
      (split; [reflexivity |]);
      (split; [intros ->; discriminate Hb |]);
      destruct ttl as [n |]; try discriminate Hv;
      (split; [exact Hv |]); (split; [reflexivity |]);
      rewrite Ha, Hs; reflexivity.
  - destruct (truthyOpt (S3StoreOptions.accessKeyId options)) eqn:Ha,
      (truthyOpt (S3StoreOptions.secretAccessKey options)) eqn:Hs;
      cbn [andb negb];
      try (split; [eexists; reflexivity | right; right; discriminate]);
      cbn [bucket defaultTtl Connection.accessKeyId
           Connection.secretAccessKey];
      (split; [reflexivity |]);
      (split; [intros ->; discriminate Hb |]);
      (split; [reflexivity |]); (split; [reflexivity |]);
      rewrite Ha, Hs; reflexivity.
Qed.

(** X23: the client of a constructed store.  Region, attempts and timeout
    default to us-east-1, 3 and 30000.  Credentials are passed when both
    keys are given, with the session token if it is not empty; without the
    keys no credentials are passed and a session token is dropped.  A
    non-empty endpoint is passed on, and path-style addressing is then
    switched on unless the options say otherwise. *)
Theorem constructor_client_configuration (options : S3StoreOptions.t)
    (config : ProcessedS3StoreOptions) (client : ClientConfig.t) :
  constructor options = inr (config, client) ->
  ClientConfig.region client
  = default "us-east-1" (S3StoreOptions.region options)
  ∧ ClientConfig.maxAttempts client
    = default (Finite 3) (S3StoreOptions.maxRetries options)
  ∧ ClientConfig.requestTimeout client
    = default (Finite 30000) (S3StoreOptions.httpTimeout options)
  ∧ match ClientConfig.credentials client with
    | Some credentials =>
        S3StoreOptions.accessKeyId options
        = Some (Credentials.accessKeyId credentials)
        ∧ S3StoreOptions.secretAccessKey options
          = Some (Credentials.secretAccessKey credentials)
        ∧ Credentials.accessKeyId credentials <> EmptyString
        ∧ Credentials.secretAccessKey credentials <> EmptyString
        ∧ Credentials.sessionToken credentials
          = (if truthyOpt (S3StoreOptions.sessionToken options)
             then S3StoreOptions.sessionToken options else None)
    | None =>
        truthyOpt (S3StoreOptions.accessKeyId options) = false
        ∧ truthyOpt (S3StoreOptions.secretAccessKey options) = false
    end
  ∧ match ClientConfig.endpoint client with
    | Some endpoint =>
        S3StoreOptions.endpoint options = Some endpoint
        ∧ endpoint <> EmptyString
        ∧ ClientConfig.forcePathStyle client
          = Some (default true (S3StoreOptions.forcePathStyle options))
    | None =>
        truthyOpt (S3StoreOptions.endpoint options) = false
        ∧ ClientConfig.forcePathStyle client = None
    end.
Proof.
  unfold constructor, validateAndProcessOptions.
  destruct (S3StoreOptions.bucket options) as [b |]; [| discriminate].
  destruct (truthy b); [| discriminate].
  destruct (match S3StoreOptions.defaultTtl options with
            | Some ttl => negb (isValidTTL ttl)
            | None => false
            end); [discriminate |].
  destruct (S3StoreOptions.accessKeyId options) as [[| a access] |] eqn:Ha,
    (S3StoreOptions.secretAccessKey options) as [[| s secret] |] eqn:Hs;
    cbn [truthyOpt truthy andb negb]; try discriminate;
    intros [= <- <-];
    unfold createS3Client;
    cbn [ClientConfig.region ClientConfig.maxAttempts
         ClientConfig.requestTimeout ClientConfig.credentials
         ClientConfig.endpoint ClientConfig.forcePathStyle
         Connection.maxRetries Connection.httpTimeout Connection.accessKeyId
         Connection.secretAccessKey Connection.sessionToken
         Connection.endpoint Connection.forcePathStyle region];
    rewrite ?Ha, ?Hs; cbn [truthy andb];
    (split; [reflexivity |]); (split; [reflexivity |]);
    (split; [reflexivity |]);
    (split;
     [first [ split; reflexivity
            | repeat (split; [reflexivity || discriminate |]); reflexivity ]
     |]);
    destruct (S3StoreOptions.endpoint options) as [[| e endpoint] |];
    cbn [truthyOpt truthy]; repeat split; discriminate.
Qed.

Lemma constructor_client_configuration_witness :
  exists config client,
    constructor ExampleOptions.options = inr (config, client)
    ∧ config = Example.config
    ∧ ClientConfig.credentials client = None
    ∧ ClientConfig.maxAttempts client = Finite 3.
Proof.
  eexists _, _. split; [reflexivity |]. split; [reflexivity |].
  destruct (constructor_client_configuration ExampleOptions.options _ _
              eq_refl) as (_ & Hattempts & _).
  split; [reflexivity | exact Hattempts].
Defined.


